(** * Heredity: exact inference over a family pedigree

    A shallow embedding of [heredity.py].  The program scores every
    hypothesis (who carries one copy of the gene, who carries two, who shows
    the trait) with [joint_probability], adds the scores into per-person
    totals with [update], and rescales the totals with [normalize].

    Modelling choices, all read off the source:
    - a Python [dict] is a [gmap], a Python [set] of names is a
      [gset string]; iterating a dict or a set follows [map_to_list] and
      [elements] (Python leaves the iteration order of a set unspecified);
    - Python floats are modelled by exact rationals ([Qc]): every theorem
      below is a statement of exact arithmetic, rounding is not modelled;
    - the gene counts [0], [1], [2] that [get_number_genes] returns, and that
      key the tables of [PROBS], are the three constructors of [GeneCount];
    - the inner dictionaries of [probabilities] have the fixed key sets
      [{2, 1, 0}] and [{True, False}] and are functions from their keys;
    - the division of [norm_dict] is the only partial operation: the
      normalizer returns [None] when a total is zero. *)

From Stdlib Require Import QArith Qcanon.
From stdpp Require Import base numbers list sorting fin_sets gmap strings fin_maps.

Local Open Scope Qc_scope.

(** ** Data model *)

(** A row of the CSV file, as [load_data] stores it: [mother] and [father]
    are [None] when the column is blank, [trait] is [None] when unknown. *)
Record Person := {
  name : string;
  mother : option string;
  father : option string;
  trait : option bool;
}.

(** The values [0], [1] and [2] of a gene count. *)
Inductive GeneCount := Zero | One | Two.

Global Instance GeneCount_eq_dec : EqDecision GeneCount.
Proof. solve_decision. Defined.

(** One entry of [probabilities]: the ["gene"] and the ["trait"] dictionary
    of a person. *)
Record Entry := {
  prob_gene : GeneCount → Qc;
  prob_trait : bool → Qc;
}.

(** One hypothesis, in the order the loops of [main] bind its parts:
    [(have_trait, one_gene, two_genes)]. *)
Definition Outcome : Type := gset string * gset string * gset string.

(** ** Model constants: [PROBS] *)

Definition hundredths (n : Z) : Qc := Q2Qc (n # 100).

Definition PROBS_gene (g : GeneCount) : Qc :=
  match g with
  | Two => hundredths 1
  | One => hundredths 3
  | Zero => hundredths 96
  end.

Definition PROBS_trait (g : GeneCount) (t : bool) : Qc :=
  match g, t with
  | Two, true => hundredths 65
  | Two, false => hundredths 35
  | One, true => hundredths 56
  | One, false => hundredths 44
  | Zero, true => hundredths 1
  | Zero, false => hundredths 99
  end.

Definition PROBS_mutation : Qc := hundredths 1.

(** ** Hypothesis enumerator *)

(** [itertools.combinations(s, r)]: the [r]-element sub-sequences of [s], in
    lexicographic order of positions. *)
Fixpoint combinations {A} (s : list A) (r : nat) : list (list A) :=
  match r, s with
  | O, _ => [[]]
  | S _, [] => []
  | S r', x :: s' => ((x ::.) <$> combinations s' r') ++ combinations s' r
  end.

(** [powerset(s)]: the combinations of every size [0 .. len(s)], chained, each
    turned back into a set. *)
Definition powerset (s : gset string) : list (gset string) :=
  let s := elements s in
  list_to_set <$> mjoin (combinations s <$> seq 0 (length s + 1)).

(** ** Joint probability evaluator *)

(** [person] is [None] when the caller passes a blank parent, which is a
    member of no set of names. *)
Definition get_number_genes (person : option string)
    (one_gene two_genes : gset string) : GeneCount :=
  match person with
  | Some person =>
      if bool_decide (person ∈ one_gene) then One
      else if bool_decide (person ∈ two_genes) then Two
      else Zero
  | None => Zero
  end.

Definition prob_of_passing (numGenes : GeneCount) : Qc :=
  match numGenes with
  | Zero => PROBS_mutation
  | One => 1 / 2
  | Two => 1 - PROBS_mutation
  end.

(** Lines 177-182: the probability of the person's own gene count from the
    two passing probabilities. *)
Definition prob_inherited (ownGenes : GeneCount) (fatherProb motherProb : Qc) : Qc :=
  match ownGenes with
  | Zero => (1 - fatherProb) * (1 - motherProb)
  | One => motherProb * (1 - fatherProb) + fatherProb * (1 - motherProb)
  | Two => motherProb * fatherProb
  end.

(** [probGenes] of one iteration of the loop of [joint_probability]. *)
Definition probGenes (person : Person) (one_gene two_genes : gset string) : Qc :=
  let ownGenes := get_number_genes (Some (name person)) one_gene two_genes in
  match mother person, father person with
  | None, None => PROBS_gene ownGenes
  | _, _ =>
      let fatherGenes := get_number_genes (father person) one_gene two_genes in
      let motherGenes := get_number_genes (mother person) one_gene two_genes in
      let fatherProb := prob_of_passing fatherGenes in
      let motherProb := prob_of_passing motherGenes in
      prob_inherited ownGenes fatherProb motherProb
  end.

(** [probTrait] of one iteration of the loop of [joint_probability]. *)
Definition probTrait (person : Person) (one_gene two_genes have_trait : gset string) : Qc :=
  let ownGenes := get_number_genes (Some (name person)) one_gene two_genes in
  if bool_decide (name person ∈ have_trait)
  then PROBS_trait ownGenes true
  else PROBS_trait ownGenes false.

Definition joint_probability (people : gmap string Person)
    (one_gene two_genes have_trait : gset string) : Qc :=
  foldl (λ probJoint '(_, person),
           probJoint * (probGenes person one_gene two_genes
                        * probTrait person one_gene two_genes have_trait))
        1 (map_to_list people).

(** ** Accumulator *)

(** [d[k] += p] on an inner dictionary. *)
Definition add_at `{EqDecision K} (d : K → Qc) (k : K) (p : Qc) : K → Qc :=
  λ a, if decide (a = k) then d a + p else d a.

(** The body of the loop of [update] for one key of [probabilities]. *)
Definition update_entry (person : string) (e : Entry)
    (one_gene two_genes have_trait : gset string) (p : Qc) : Entry :=
  let ownGenes := get_number_genes (Some person) one_gene two_genes in
  let trait := bool_decide (person ∈ have_trait) in
  {| prob_trait := if trait then add_at (prob_trait e) true p
                   else add_at (prob_trait e) false p;
     prob_gene := add_at (prob_gene e) ownGenes p |}.

Definition update (probabilities : gmap string Entry)
    (one_gene two_genes have_trait : gset string) (p : Qc) : gmap string Entry :=
  foldl (λ probabilities person,
           alter (λ e, update_entry person e one_gene two_genes have_trait p)
                 person probabilities)
        probabilities (elements (dom probabilities)).

(** ** Normalizer *)

(** [np.sum] of a list of values; [main] only sums its float totals. *)
Definition np_sum (l : list Qc) : Qc := foldl Qcplus 0 l.

(** [norm_dict], with the keys of the dictionary in the order [main] created
    them.  [None] marks the division by a zero total, where numpy produces
    nan values with a warning; no total of [main] is zero. *)
Definition norm_dict {K} (keys : list K) (p : K → Qc) : option (K → Qc) :=
  let total := np_sum (p <$> keys) in
  if decide (total = 0) then None else Some (λ a, p a / total).

Definition gene_keys : list GeneCount := [Two; One; Zero].
Definition trait_keys : list bool := [true; false].

Definition normalize_entry (e : Entry) : option Entry :=
  g ← norm_dict gene_keys (prob_gene e);
  t ← norm_dict trait_keys (prob_trait e);
  Some {| prob_gene := g; prob_trait := t |}.

(** The loop of [normalize]; it stops at the first entry that cannot be
    normalized. *)
Definition normalize (probabilities : gmap string Entry) : option (gmap string Entry) :=
  foldl (λ probabilities person,
           probabilities ← probabilities;
           e ← probabilities !! person;
           e' ← normalize_entry e;
           Some (<[person := e']> probabilities))
        (Some probabilities) (elements (dom probabilities)).

(** ** The main loop *)

(** The initial value of [probabilities]: every total is [0]. *)
Definition zero_entry : Entry :=
  {| prob_gene := λ _, 0; prob_trait := λ _, 0 |}.

Definition initial (people : gmap string Person) : gmap string Entry :=
  (λ _, zero_entry) <$> people.

(** [fails_evidence]: [names] is [set(people)], so the pairs of [person] and
    [people[person]] for [person in names] are the items of [people]. *)
Definition fails_evidence (people : gmap string Person) (have_trait : gset string) : bool :=
  existsb (λ '(person, row),
             match trait row with
             | Some t => negb (eqb t (bool_decide (person ∈ have_trait)))
             | None => false
             end)
          (map_to_list people).

(** The two inner loops: every [one_gene], and for each of them every
    [two_genes] among the remaining names. *)
Definition gene_splits (names : gset string) : list (gset string * gset string) :=
  one_gene ← powerset names;
  two_genes ← powerset (names ∖ one_gene);
  [(one_gene, two_genes)].

(** The hypotheses that reach [joint_probability] and [update], in the order
    the three loops of [main] produce them. *)
Definition hypotheses (people : gmap string Person) : list Outcome :=
  let names := dom people in
  have_trait ← powerset names;
  if fails_evidence people have_trait then []
  else (λ '(one_gene, two_genes), (have_trait, one_gene, two_genes))
         <$> gene_splits names.

(** One pass of the loop body: score the hypothesis, then add the score. *)
Definition step (people : gmap string Person)
    (probabilities : gmap string Entry) (h : Outcome) : gmap string Entry :=
  let '(have_trait, one_gene, two_genes) := h in
  let p := joint_probability people one_gene two_genes have_trait in
  update probabilities one_gene two_genes have_trait p.

(** [probabilities] after the hypotheses [hs] have been processed. *)
Definition run (people : gmap string Person) (hs : list Outcome) : gmap string Entry :=
  foldl (step people) (initial people) hs.

(** [probabilities] when the loops of [main] are over, before [normalize]. *)
Definition accumulated (people : gmap string Person) : gmap string Entry :=
  run people (hypotheses people).

(** [main], from the loaded [people] to the table it prints. *)
Definition main (people : gmap string Person) : option (gmap string Entry) :=
  normalize (accumulated people).

(** The sum of the joint probabilities of the hypotheses [main] scores. *)
Definition total_probability (people : gmap string Person) : Qc :=
  np_sum ((λ '(have_trait, one_gene, two_genes),
             joint_probability people one_gene two_genes have_trait)
          <$> hypotheses people).

(** ** Auxiliary definitions for the proofs *)

(** The running product of [joint_probability] over a list of rows. *)
Definition product_over (f : Person → Qc) (rows : list (string * Person)) : Qc :=
  foldl (λ probJoint '(_, person), probJoint * f person) 1 rows.

(** The factor one person contributes to the joint probability. *)
Definition factor (one_gene two_genes have_trait : gset string) (person : Person) : Qc :=
  probGenes person one_gene two_genes * probTrait person one_gene two_genes have_trait.

(** The joint probability of a hypothesis of [main]. *)
Definition score (people : gmap string Person) (h : Outcome) : Qc :=
  let '(have_trait, one_gene, two_genes) := h in
  joint_probability people one_gene two_genes have_trait.

(** What the hypothesis [h] adds to the bucket [g] of the ["gene"] totals of
    [person], and to the bucket [t] of the ["trait"] totals. *)
Definition gene_share (people : gmap string Person) (person : string)
    (g : GeneCount) (h : Outcome) : Qc :=
  let '(have_trait, one_gene, two_genes) := h in
  if decide (g = get_number_genes (Some person) one_gene two_genes)
  then score people h else 0.

Definition trait_share (people : gmap string Person) (person : string)
    (t : bool) (h : Outcome) : Qc :=
  let '(have_trait, one_gene, two_genes) := h in
  if decide (t = bool_decide (person ∈ have_trait))
  then score people h else 0.

(** Putting one more person into the one-gene set, or into the two-genes set,
    of a pair of the inner loops. *)
Definition with_one (x : string) (split : gset string * gset string) :
    gset string * gset string :=
  ({[x]} ∪ split.1, split.2).

Definition with_two (x : string) (split : gset string * gset string) :
    gset string * gset string :=
  (split.1, {[x]} ∪ split.2).

(** The sum of [F] over all the triples the three loops of [main] range
    over when no trait is observed. *)
Definition sum_over_loops (names : gset string)
    (F : gset string → gset string → gset string → Qc) : Qc :=
  np_sum ((λ have_trait,
             np_sum ((λ split, F have_trait split.1 split.2) <$> gene_splits names))
          <$> powerset names).

(** The six ways of placing one more person [x] in a hypothesis. *)
Definition six_ways (x : string)
    (F : gset string → gset string → gset string → Qc)
    (have_trait one_gene two_genes : gset string) : Qc :=
  (F have_trait one_gene two_genes
   + F have_trait ({[x]} ∪ one_gene) two_genes
   + F have_trait one_gene ({[x]} ∪ two_genes))
  + (F ({[x]} ∪ have_trait) one_gene two_genes
     + F ({[x]} ∪ have_trait) ({[x]} ∪ one_gene) two_genes
     + F ({[x]} ∪ have_trait) one_gene ({[x]} ∪ two_genes)).

(** ** Structural validity of a population *)

(** [load_data] stores each row under its own name. *)
Definition keyed_by_name (people : gmap string Person) : Prop :=
  map_Forall (λ key row, name row = key) people.

(** A recorded parent belongs to an earlier generation than the child. *)
Definition earlier (generation : string → nat) (parent : option string)
    (child : string) : Prop :=
  match parent with
  | Some parent => (generation parent < generation child)%nat
  | None => True
  end.

Global Instance earlier_dec generation parent child :
  Decision (earlier generation parent child).
Proof. destruct parent; simpl; apply _. Defined.

(** The parent relation has no cycle: [generation] grows from every recorded
    parent to the child. *)
Definition acyclic (generation : string → nat) (people : gmap string Person) : Prop :=
  map_Forall (λ key row, earlier generation (mother row) key
                         ∧ earlier generation (father row) key) people.

(** No trait value is known. *)
Definition unobserved (people : gmap string Person) : Prop :=
  map_Forall (λ _ row, trait row = None) people.

Global Instance keyed_by_name_dec people : Decision (keyed_by_name people).
Proof. unfold keyed_by_name. apply _. Defined.

Global Instance acyclic_dec generation people : Decision (acyclic generation people).
Proof. unfold acyclic. apply _. Defined.

Global Instance unobserved_dec people : Decision (unobserved people).
Proof. unfold unobserved. apply _. Defined.

(** The people known to show the trait. *)
Definition observed_positive (people : gmap string Person) : gset string :=
  dom (filter (λ kr, trait kr.2 = Some true) people).

(** ** Small populations used as concrete inputs *)

(** One person without recorded parents. *)
Definition single (who : string) (t : option bool) : gmap string Person :=
  {[ who := {| name := who; mother := None; father := None; trait := t |} ]}.

Definition harry : Person :=
  {| name := "Harry"; mother := Some "Lily"%string; father := Some "James"%string;
     trait := None |}.

(** Two parents and their child; [family None None] observes nothing. *)
Definition family (james lily : option bool) : gmap string Person :=
  {[ "Harry"%string := harry;
     "James"%string := {| name := "James"; mother := None; father := None;
                          trait := james |};
     "Lily"%string := {| name := "Lily"; mother := None; father := None;
                         trait := lily |} ]}.

Definition family_generation (who : string) : nat :=
  if decide (who = "Harry"%string) then 1%nat else 0%nat.

(** A row that names itself as both parents: not a valid population. *)
Definition own_parent : gmap string Person :=
  {[ "Harry"%string := {| name := "Harry"; mother := Some "Harry"%string;
                          father := Some "Harry"%string; trait := None |} ]}.

(** A child whose father is not recorded. *)
Definition half_orphan : Person :=
  {| name := "Harry"; mother := Some "Lily"%string; father := None; trait := None |}.

(** ** The evaluator in the words of the specification

    A second description of the joint probability, written from the prose and
    not from the code: plain numbers for the gene counts, the tables spelled
    out, membership tested directly in the sets of the hypothesis.  The
    theorems on the evaluator compare the code with it. *)

(** The gene count a hypothesis assigns to a name: 1 for the members of the
    one-gene set, 2 for the members of the two-genes set, 0 for the rest. *)
Definition spec_copies (one_gene two_genes : gset string) (who : string) : nat :=
  if decide (who ∈ one_gene) then 1%nat
  else if decide (who ∈ two_genes) then 2%nat
  else 0%nat.

(** The unconditional prior: 0.96, 0.03 and 0.01 for 0, 1 and 2 copies. *)
Definition spec_prior (copies : nat) : Qc :=
  match copies with
  | 0%nat => hundredths 96
  | 1%nat => hundredths 3
  | _ => hundredths 1
  end.

(** The probability that a parent passes the gene: the mutation rate 0.01
    with 0 copies, 0.5 with 1 copy, 1 - 0.01 with 2 copies. *)
Definition spec_passing (copies : nat) : Qc :=
  match copies with
  | 0%nat => hundredths 1
  | 1%nat => hundredths 50
  | _ => 1 - hundredths 1
  end.

(** The probability of the child's gene count from the two passing
    probabilities. *)
Definition spec_child (copies : nat) (father_passes mother_passes : Qc) : Qc :=
  match copies with
  | 0%nat => (1 - father_passes) * (1 - mother_passes)
  | 1%nat => mother_passes * (1 - father_passes) + father_passes * (1 - mother_passes)
  | _ => mother_passes * father_passes
  end.

(** The trait table: the probability of showing, or not showing, the trait
    with 0, 1 and 2 copies. *)
Definition spec_trait (copies : nat) (shows : bool) : Qc :=
  match copies, shows with
  | 0%nat, true => hundredths 1
  | 0%nat, false => hundredths 99
  | 1%nat, true => hundredths 56
  | 1%nat, false => hundredths 44
  | _, true => hundredths 65
  | _, false => hundredths 35
  end.

(** The passing probability of a parent cell; a parent that is not recorded
    counts as a parent with 0 copies. *)
Definition spec_parent_passes (one_gene two_genes : gset string)
    (parent : option string) : Qc :=
  match parent with
  | Some parent => spec_passing (spec_copies one_gene two_genes parent)
  | None => spec_passing 0
  end.

(** The gene-count probability of a person: the prior when no parent is
    recorded, the transmission formula otherwise. *)
Definition spec_gene_probability (one_gene two_genes : gset string)
    (row : Person) : Qc :=
  let copies := spec_copies one_gene two_genes (name row) in
  match mother row, father row with
  | None, None => spec_prior copies
  | _, _ => spec_child copies (spec_parent_passes one_gene two_genes (father row))
                              (spec_parent_passes one_gene two_genes (mother row))
  end.

(** The term of one person, and the joint probability as the product of the
    terms of all the people; the empty product is 1. *)
Definition spec_term (one_gene two_genes have_trait : gset string)
    (row : Person) : Qc :=
  spec_gene_probability one_gene two_genes row
  * spec_trait (spec_copies one_gene two_genes (name row))
               (bool_decide (name row ∈ have_trait)).

Definition spec_joint_probability (people : gmap string Person)
    (one_gene two_genes have_trait : gset string) : Qc :=
  foldr Qcmult 1 (spec_term one_gene two_genes have_trait <$> (map_to_list people).*2).

(** The number a value of [GeneCount] stands for. *)
Definition copies_of (g : GeneCount) : nat :=
  match g with Zero => 0%nat | One => 1%nat | Two => 2%nat end.

(** The sum of the joint probabilities of all the gene assignments, for one
    trait-positive set: what the two inner loops of [main] add up. *)
Definition trait_set_score (people : gmap string Person) (have_trait : gset string) : Qc :=
  np_sum ((λ split, joint_probability people split.1 split.2 have_trait)
          <$> gene_splits (dom people)).

(** ** Loading the population *)

(** A row of the file as [csv.DictReader] hands it to [load_data]: the four
    columns, each a string, blank when the cell is empty. *)
Record Row := {
  row_name : string;
  row_mother : string;
  row_father : string;
  row_trait : string;
}.

(** [s or None]: the empty string is the only false string. *)
Definition or_None (s : string) : option string :=
  if decide (s = ""%string) then None else Some s.

(** The record [load_data] builds from one row. *)
Definition load_row (row : Row) : Person :=
  {| name := row_name row;
     mother := or_None (row_mother row);
     father := or_None (row_father row);
     trait := if decide (row_trait row = "1"%string) then Some true
              else if decide (row_trait row = "0"%string) then Some false
              else None |}.

(** The loop of [load_data] over the rows of the reader: [data[name] = ...]. *)
Definition load_data (rows : list Row) : gmap string Person :=
  foldl (λ data row, <[row_name row := load_row row]> data) ∅ rows.

(** ** Further auxiliary definitions *)

(** The names a population mentions: its people and their recorded parents. *)
Definition mentioned (people : gmap string Person) : gset string :=
  list_to_set (map_to_list people ≫=
                 λ '(_, row), name row :: option_list (mother row)
                              ++ option_list (father row)).

(** The people whose trait is not known. *)
Definition unknown_trait (people : gmap string Person) : gmap string Person :=
  filter (λ kr, trait kr.2 = None) people.

(** The hypothesis [h] with [x] put into its trait-positive set. *)
Definition with_trait (x : string) (h : Outcome) : Outcome :=
  let '(have_trait, one_gene, two_genes) := h in
  ({[x]} ∪ have_trait, one_gene, two_genes).

(** The hypotheses of [main] in which [x] does not show the trait. *)
Definition without_trait (x : string) (people : gmap string Person) : list Outcome :=
  filter (λ h, x ∉ h.1.1) (hypotheses people).

(** A weight that looks at no name but [x]. *)
Definition only_looks_at (x : string)
    (W : gset string → gset string → gset string → Qc) : Prop :=
  ∀ y have_trait one_gene two_genes, y ≠ x →
    W ({[y]} ∪ have_trait) one_gene two_genes = W have_trait one_gene two_genes
    ∧ W have_trait ({[y]} ∪ one_gene) two_genes = W have_trait one_gene two_genes
    ∧ W have_trait one_gene ({[y]} ∪ two_genes) = W have_trait one_gene two_genes.

(** The row of a person with the two parents exchanged. *)
Definition swap_parents (row : Person) : Person :=
  {| name := name row; mother := father row; father := mother row;
     trait := trait row |}.

(** ** Sums and products *)

(** Two rationals with different canonical forms differ. *)
Ltac Qc_differ :=
  let H := fresh in
  intros H; apply (f_equal this) in H; vm_compute in H; discriminate H.

Lemma foldl_Qcplus_acc (a : Qc) (l : list Qc) :
  foldl Qcplus a l = a + np_sum l.
Proof.
  unfold np_sum. revert a. induction l as [|x l IH]; intros a; simpl.
  - ring.
  - rewrite (IH (a + x)), (IH (0 + x)). ring.
Qed.

Lemma np_sum_nil : np_sum [] = 0.
Proof. reflexivity. Qed.

Lemma np_sum_cons (x : Qc) (l : list Qc) : np_sum (x :: l) = x + np_sum l.
Proof. unfold np_sum at 1. simpl. rewrite foldl_Qcplus_acc. ring. Qed.

Lemma np_sum_app (l k : list Qc) : np_sum (l ++ k) = np_sum l + np_sum k.
Proof.
  induction l as [|x l IH]; simpl.
  - rewrite np_sum_nil. ring.
  - rewrite !np_sum_cons, IH. ring.
Qed.

Global Instance np_sum_perm : Proper ((≡ₚ) ==> (=)) np_sum.
Proof.
  intros l k Hlk. induction Hlk as [|x l k _ IH|x y l|l k m _ IH1 _ IH2].
  - done.
  - by rewrite !np_sum_cons, IH.
  - rewrite !np_sum_cons. ring.
  - congruence.
Qed.

Lemma np_sum_nonneg (l : list Qc) : Forall (λ x, 0 ≤ x) l → 0 ≤ np_sum l.
Proof.
  induction 1 as [|x l Hx _ IH]; [done|].
  rewrite np_sum_cons. by apply Qcplus_nonneg_nonneg.
Qed.

Lemma np_sum_pos (l : list Qc) : l ≠ [] → Forall (λ x, 0 < x) l → 0 < np_sum l.
Proof.
  intros Hl Hpos. destruct Hpos as [|x l Hx Hpos]; [done|].
  rewrite np_sum_cons. apply Qcplus_pos_nonneg; [done|].
  apply np_sum_nonneg. eapply Forall_impl; [done|]. intros. by apply Qclt_le_weak.
Qed.

Lemma np_sum_fmap_ext {A} (f g : A → Qc) (l : list A) :
  (∀ x, x ∈ l → f x = g x) → np_sum (f <$> l) = np_sum (g <$> l).
Proof.
  intros Hfg. f_equal. apply list_fmap_ext. intros i x Hx. apply Hfg.
  by eapply list_elem_of_lookup_2.
Qed.

Lemma np_sum_fmap_plus {A} (f g : A → Qc) (l : list A) :
  np_sum ((λ x, f x + g x) <$> l) = np_sum (f <$> l) + np_sum (g <$> l).
Proof.
  induction l as [|x l IH]; csimpl.
  - rewrite np_sum_nil. ring.
  - rewrite !np_sum_cons, IH. ring.
Qed.

Lemma np_sum_fmap_mult_l {A} (c : Qc) (f : A → Qc) (l : list A) :
  np_sum ((λ x, c * f x) <$> l) = c * np_sum (f <$> l).
Proof.
  induction l as [|x l IH]; csimpl.
  - rewrite np_sum_nil. ring.
  - rewrite !np_sum_cons, IH. ring.
Qed.

Lemma np_sum_bind {A B} (f : B → Qc) (g : A → list B) (l : list A) :
  np_sum (f <$> (l ≫= g)) = np_sum ((λ x, np_sum (f <$> g x)) <$> l).
Proof.
  induction l as [|x l IH]; csimpl; [done|].
  by rewrite fmap_app, np_sum_app, np_sum_cons, IH.
Qed.

Lemma foldl_product_acc (f : Person → Qc) (a : Qc) (rows : list (string * Person)) :
  foldl (λ probJoint '(_, person), probJoint * f person) a rows
  = a * product_over f rows.
Proof.
  unfold product_over. revert a. induction rows as [|[k x] rows IH]; intros a; simpl.
  - ring.
  - rewrite (IH (a * f x)), (IH (1 * f x)). ring.
Qed.

Lemma product_over_cons f k x rows :
  product_over f ((k, x) :: rows) = f x * product_over f rows.
Proof. unfold product_over at 1. simpl. rewrite foldl_product_acc. ring. Qed.

Global Instance product_over_perm f : Proper ((≡ₚ) ==> (=)) (product_over f).
Proof.
  intros l k Hlk. induction Hlk as [|[??] l k _ IH|[??] [??] l|l k m _ IH1 _ IH2].
  - done.
  - by rewrite !product_over_cons, IH.
  - rewrite !product_over_cons. ring.
  - congruence.
Qed.

Lemma product_over_ext f g rows :
  (∀ k x, (k, x) ∈ rows → f x = g x) → product_over f rows = product_over g rows.
Proof.
  induction rows as [|[k x] rows IH]; intros Hfg; [done|].
  rewrite !product_over_cons, IH.
  - f_equal. eapply Hfg. left.
  - intros k' x' Hin. eapply Hfg. by right.
Qed.

Lemma product_over_pos f rows :
  (∀ k x, (k, x) ∈ rows → 0 < f x) → 0 < product_over f rows.
Proof.
  induction rows as [|[k x] rows IH]; intros Hpos; [done|].
  rewrite product_over_cons. apply Qcmult_pos_pos.
  - eapply Hpos. left.
  - apply IH. intros k' x' Hin. eapply Hpos. by right.
Qed.

Lemma joint_probability_product people one_gene two_genes have_trait :
  joint_probability people one_gene two_genes have_trait
  = product_over (factor one_gene two_genes have_trait) (map_to_list people).
Proof. reflexivity. Qed.

(** ** The accumulator and the normalizer, key by key *)

Lemma foldl_alter_lookup {A} (F : string → A → A) (l : list string) (m : gmap string A) k :
  NoDup l →
  foldl (λ m k, alter (F k) k m) m l !! k
  = if decide (k ∈ l) then F k <$> m !! k else m !! k.
Proof.
  revert m. induction l as [|a l IH]; intros m Hnd.
  - case_decide as Hin; [by apply elem_of_nil in Hin|done].
  - apply NoDup_cons in Hnd as [Ha Hnd]. cbn [foldl]. rewrite IH by done.
    destruct (decide (k = a)) as [->|Hne].
    + rewrite (decide_False (P := a ∈ l)) by done.
      rewrite (decide_True (P := a ∈ a :: l)) by left.
      by rewrite lookup_alter_eq.
    + rewrite lookup_alter_ne by done.
      destruct (decide (k ∈ l)) as [Hin|Hin].
      * by rewrite decide_True by (by right).
      * rewrite decide_False; [done|]. rewrite elem_of_cons. tauto.
Qed.

Lemma update_lookup probabilities one_gene two_genes have_trait p person :
  update probabilities one_gene two_genes have_trait p !! person
  = (λ e, update_entry person e one_gene two_genes have_trait p)
      <$> probabilities !! person.
Proof.
  unfold update.
  rewrite (foldl_alter_lookup
             (λ person e, update_entry person e one_gene two_genes have_trait p))
    by apply NoDup_elements.
  case_decide as Hin; [done|].
  rewrite elem_of_elements, not_elem_of_dom in Hin. by rewrite Hin.
Qed.

Lemma update_dom probabilities one_gene two_genes have_trait p :
  dom (update probabilities one_gene two_genes have_trait p) = dom probabilities.
Proof.
  apply set_eq. intros k. rewrite !elem_of_dom, update_lookup.
  by rewrite fmap_is_Some.
Qed.


Lemma np_sum_gene_keys (p : GeneCount → Qc) :
  np_sum (p <$> gene_keys) = p Two + p One + p Zero.
Proof. unfold gene_keys. csimpl. rewrite !np_sum_cons, np_sum_nil. ring. Qed.

Lemma np_sum_trait_keys (p : bool → Qc) :
  np_sum (p <$> trait_keys) = p true + p false.
Proof. unfold trait_keys. csimpl. rewrite !np_sum_cons, np_sum_nil. ring. Qed.

Lemma normalize_entry_Some (e : Entry) :
  prob_gene e Two + prob_gene e One + prob_gene e Zero ≠ 0 →
  prob_trait e true + prob_trait e false ≠ 0 →
  ∃ e', normalize_entry e = Some e'
    ∧ (∀ g, prob_gene e' g
            = prob_gene e g / (prob_gene e Two + prob_gene e One + prob_gene e Zero))
    ∧ (∀ t, prob_trait e' t = prob_trait e t / (prob_trait e true + prob_trait e false)).
Proof.
  intros Hg Ht. unfold normalize_entry, norm_dict.
  rewrite np_sum_gene_keys, np_sum_trait_keys.
  rewrite !decide_False by done. simpl. eauto.
Qed.

Lemma normalize_fold (l : list string) (m : gmap string Entry) :
  NoDup l →
  (∀ k, k ∈ l → ∃ e, m !! k = Some e ∧ is_Some (normalize_entry e)) →
  ∃ m',
    foldl (λ probabilities person,
             probabilities ← probabilities;
             e ← probabilities !! person;
             e' ← normalize_entry e;
             Some (<[person := e']> probabilities))
          (Some m) l = Some m'
    ∧ ∀ k, m' !! k = if decide (k ∈ l) then m !! k ≫= normalize_entry else m !! k.
Proof.
  revert m. induction l as [|a l IH]; intros m Hnd Hok.
  - exists m. split; [done|]. intros k.
    case_decide as Hin; [by apply elem_of_nil in Hin|done].
  - apply NoDup_cons in Hnd as [Ha Hnd].
    destruct (Hok a) as (e & Hae & [e' He']); [left|].
    cbn [foldl]. simpl. rewrite Hae. simpl. rewrite He'. simpl.
    destruct (IH (<[a:=e']> m) Hnd) as (m' & Hm' & Hlook).
    { intros k Hk. destruct (Hok k) as (ek & Hek & Hsome); [by right|].
      exists ek. split; [|done]. rewrite lookup_insert_ne; [done|].
      intros ->. done. }
    exists m'. split; [done|]. intros k. rewrite Hlook.
    destruct (decide (k = a)) as [->|Hne].
    + rewrite (decide_False (P := a ∈ l)) by done.
      rewrite (decide_True (P := a ∈ a :: l)) by left.
      rewrite lookup_insert_eq, Hae. done.
    + rewrite lookup_insert_ne by done.
      destruct (decide (k ∈ l)) as [Hin|Hin].
      * by rewrite decide_True by (by right).
      * rewrite decide_False; [done|]. rewrite elem_of_cons. tauto.
Qed.

Lemma normalize_Some (probabilities : gmap string Entry) :
  (∀ k e, probabilities !! k = Some e → is_Some (normalize_entry e)) →
  ∃ final, normalize probabilities = Some final
    ∧ ∀ k, final !! k = probabilities !! k ≫= normalize_entry.
Proof.
  intros Hok.
  destruct (normalize_fold (elements (dom probabilities)) probabilities)
    as (final & Hfinal & Hlook).
  - apply NoDup_elements.
  - intros k Hk. apply elem_of_elements, elem_of_dom in Hk as [e He]. eauto.
  - exists final. split; [done|]. intros k. rewrite Hlook.
    case_decide as Hin; [done|].
    rewrite elem_of_elements, not_elem_of_dom in Hin. by rewrite Hin.
Qed.

(** ** Positivity of the evaluator *)

Lemma Qc_this_eq (x y : Qc) : this x = this y → x = y.
Proof. intros H. apply Qc_is_canon. by rewrite H. Qed.

Lemma prob_of_passing_pos g : 0 < prob_of_passing g.
Proof. by destruct g. Qed.

Lemma prob_inherited_pos own fatherGenes motherGenes :
  0 < prob_inherited own (prob_of_passing fatherGenes) (prob_of_passing motherGenes).
Proof. by destruct own, fatherGenes, motherGenes. Qed.

Lemma PROBS_gene_pos g : 0 < PROBS_gene g.
Proof. by destruct g. Qed.

Lemma PROBS_trait_pos g t : 0 < PROBS_trait g t.
Proof. by destruct g, t. Qed.

Lemma probGenes_pos person one_gene two_genes : 0 < probGenes person one_gene two_genes.
Proof.
  unfold probGenes.
  destruct (mother person), (father person);
    auto using prob_inherited_pos, PROBS_gene_pos.
Qed.

Lemma probTrait_pos person one_gene two_genes have_trait :
  0 < probTrait person one_gene two_genes have_trait.
Proof. unfold probTrait. case_bool_decide; apply PROBS_trait_pos. Qed.

Lemma factor_pos one_gene two_genes have_trait person :
  0 < factor one_gene two_genes have_trait person.
Proof. apply Qcmult_pos_pos; [apply probGenes_pos|apply probTrait_pos]. Qed.

Lemma joint_probability_pos people one_gene two_genes have_trait :
  0 < joint_probability people one_gene two_genes have_trait.
Proof.
  rewrite joint_probability_product. apply product_over_pos.
  intros. apply factor_pos.
Qed.

Lemma score_pos people h : 0 < score people h.
Proof. destruct h as [[??]?]. apply joint_probability_pos. Qed.

(** ** The totals after any number of hypotheses *)

Lemma run_snoc people hs h : run people (hs ++ [h]) = step people (run people hs) h.
Proof. unfold run. by rewrite foldl_app. Qed.

Lemma run_lookup people hs person row :
  people !! person = Some row →
  ∃ e, run people hs !! person = Some e
    ∧ (∀ g, prob_gene e g = np_sum (gene_share people person g <$> hs))
    ∧ (∀ t, prob_trait e t = np_sum (trait_share people person t <$> hs)).
Proof.
  intros Hrow. induction hs as [|h hs IH] using rev_ind.
  - exists zero_entry. unfold run, initial. simpl.
    by rewrite lookup_fmap, Hrow.
  - destruct IH as (e & He & Hgene & Htrait).
    rewrite run_snoc. destruct h as [[have_trait one_gene] two_genes].
    unfold step. rewrite update_lookup, He. simpl.
    eexists. split; [done|]. simpl. split.
    + intros g. rewrite fmap_app, np_sum_app. csimpl.
      rewrite np_sum_cons, np_sum_nil, <-Hgene. unfold add_at.
      case_decide; ring.
    + intros t. rewrite fmap_app, np_sum_app. csimpl.
      rewrite np_sum_cons, np_sum_nil, <-Htrait.
      case_bool_decide; unfold add_at; repeat case_decide; try ring; by destruct t.
Qed.

Lemma run_dom people hs : dom (run people hs) = dom people.
Proof.
  induction hs as [|h hs IH] using rev_ind.
  - unfold run, initial. simpl. apply dom_fmap_L.
  - rewrite run_snoc. destruct h as [[??]?]. unfold step. by rewrite update_dom.
Qed.

Lemma gene_shares_sum people person h :
  gene_share people person Two h + gene_share people person One h
  + gene_share people person Zero h = score people h.
Proof.
  destruct h as [[have_trait one_gene] two_genes]. unfold gene_share.
  destruct (get_number_genes (Some person) one_gene two_genes);
    repeat case_decide; try done; ring.
Qed.

Lemma trait_shares_sum people person h :
  trait_share people person true h + trait_share people person false h
  = score people h.
Proof.
  destruct h as [[have_trait one_gene] two_genes]. unfold trait_share.
  destruct (bool_decide (person ∈ have_trait));
    repeat case_decide; try done; ring.
Qed.

Lemma gene_share_nonneg people person g h : 0 ≤ gene_share people person g h.
Proof.
  destruct h as [[have_trait one_gene] two_genes]. unfold gene_share.
  case_decide; [|done]. apply Qclt_le_weak, score_pos.
Qed.

Lemma trait_share_nonneg people person t h : 0 ≤ trait_share people person t h.
Proof.
  destruct h as [[have_trait one_gene] two_genes]. unfold trait_share.
  case_decide; [|done]. apply Qclt_le_weak, score_pos.
Qed.

(** ** The enumerator: [combinations] and [powerset] *)

Section combinations.
Context {A : Type}.
Implicit Types (s c : list A) (r : nat).

Lemma elem_of_combinations s r c :
  c ∈ combinations s r ↔ c `sublist_of` s ∧ length c = r.
Proof.
  revert r c. induction s as [|x s IH]; intros [|r] c; simpl.
  - rewrite list_elem_of_singleton. split.
    + intros ->. split; [constructor|done].
    + intros [_ Hlen]. by apply length_zero_iff_nil.
  - rewrite elem_of_nil. split; [done|]. intros [Hsub Hlen].
    apply sublist_nil_r in Hsub. by subst.
  - rewrite list_elem_of_singleton. split.
    + intros ->. split; [apply sublist_nil_l|done].
    + intros [_ Hlen]. by apply length_zero_iff_nil.
  - rewrite elem_of_app, list_elem_of_fmap, sublist_cons_r. split.
    + intros [(c' & -> & Hc')|Hc].
      * apply IH in Hc' as [Hsub Hlen]. split; [right; eauto|by simpl; f_equal].
      * apply IH in Hc as [Hsub Hlen]. split; [by left|done].
    + intros [[Hsub|(c' & -> & Hsub)] Hlen].
      * right. by apply IH.
      * left. exists c'. split; [done|]. apply IH. split; [done|].
        simpl in Hlen. congruence.
Qed.

Lemma NoDup_combinations s r : NoDup s → NoDup (combinations s r).
Proof.
  intros Hs. revert r. induction Hs as [|x s Hx Hs IH]; intros [|r]; simpl.
  - apply NoDup_singleton.
  - constructor.
  - apply NoDup_singleton.
  - apply NoDup_app. split_and!.
    + apply (NoDup_fmap_2 _), IH.
    + intros c (c' & -> & _)%list_elem_of_fmap [Hsub _]%elem_of_combinations.
      apply Hx. eapply sublist_submseteq, elem_of_submseteq in Hsub; [done|left].
    + apply IH.
Qed.

Lemma elem_of_chained_combinations s c :
  c ∈ mjoin (combinations s <$> seq 0 (length s + 1)) ↔ c `sublist_of` s.
Proof.
  rewrite list_elem_of_join. split.
  - intros (l & Hc & (r & -> & _)%list_elem_of_fmap).
    by apply elem_of_combinations in Hc as [? _].
  - intros Hsub. exists (combinations s (length c)). split.
    + by apply elem_of_combinations.
    + apply list_elem_of_fmap. exists (length c). split; [done|].
      apply elem_of_seq. apply sublist_length in Hsub. lia.
Qed.

Lemma NoDup_chained_combinations s :
  NoDup s → NoDup (mjoin (combinations s <$> seq 0 (length s + 1))).
Proof.
  intros Hs. rewrite list_join_bind. apply NoDup_bind.
  - intros l1 l2 c (r1 & -> & _)%list_elem_of_fmap (r2 & -> & _)%list_elem_of_fmap.
    unfold id. intros [_ H1]%elem_of_combinations [_ H2]%elem_of_combinations.
    congruence.
  - intros l (r & -> & _)%list_elem_of_fmap. by apply NoDup_combinations.
  - apply (NoDup_fmap_2_strong _).
    + intros r1 r2 Hr1%elem_of_seq _ Heq.
      assert (Hin : take r1 s ∈ combinations s r2).
      { rewrite <-Heq. apply elem_of_combinations. split.
        - apply sublist_take.
        - rewrite length_take. lia. }
      apply elem_of_combinations in Hin as [_ Hlen].
      rewrite length_take in Hlen. lia.
    + apply NoDup_seq.
Qed.
End combinations.

Lemma sublist_to_set_inj (l c1 c2 : list string) :
  NoDup l → c1 `sublist_of` l → c2 `sublist_of` l →
  list_to_set (C := gset string) c1 = list_to_set c2 → c1 = c2.
Proof.
  intros Hl. revert c1 c2.
  induction Hl as [|x l Hx Hl IH]; intros c1 c2 H1 H2 Heq.
  - apply sublist_nil_r in H1, H2. by subst.
  - assert (Hfresh : ∀ c, c `sublist_of` l → x ∉ list_to_set (C := gset string) c).
    { intros c Hc Hin. apply elem_of_list_to_set in Hin. apply Hx.
      eapply elem_of_submseteq; [done|]. by apply sublist_submseteq. }
    apply sublist_cons_r in H1 as [H1|(c1' & -> & H1)];
      apply sublist_cons_r in H2 as [H2|(c2' & -> & H2)].
    + by apply IH.
    + exfalso. apply (Hfresh c1 H1). rewrite Heq, list_to_set_cons. set_solver.
    + exfalso. apply (Hfresh c2 H2). rewrite <-Heq, list_to_set_cons. set_solver.
    + f_equal. apply IH; [done..|].
      rewrite !list_to_set_cons in Heq.
      pose proof (Hfresh c1' H1). pose proof (Hfresh c2' H2). set_solver.
Qed.

Lemma elem_of_powerset (s X : gset string) : X ∈ powerset s ↔ X ⊆ s.
Proof.
  unfold powerset. rewrite list_elem_of_fmap. split.
  - intros (c & -> & Hc%elem_of_chained_combinations).
    intros x Hx%elem_of_list_to_set. apply elem_of_elements.
    eapply elem_of_submseteq; [done|]. by apply sublist_submseteq.
  - intros HX. exists (filter (.∈ X) (elements s)). split.
    + apply set_eq. intros x.
      rewrite elem_of_list_to_set, list_elem_of_filter, elem_of_elements. set_solver.
    + apply elem_of_chained_combinations, sublist_filter.
Qed.

Lemma NoDup_powerset (s : gset string) : NoDup (powerset s).
Proof.
  unfold powerset. apply NoDup_fmap_2_strong.
  - intros c1 c2 H1%elem_of_chained_combinations H2%elem_of_chained_combinations.
    apply (sublist_to_set_inj (elements s)); [apply NoDup_elements|done..].
  - apply NoDup_chained_combinations, NoDup_elements.
Qed.

Lemma powerset_empty : powerset ∅ = [∅].
Proof. unfold powerset. by rewrite elements_empty. Qed.

Lemma powerset_insert (x : string) (s : gset string) :
  x ∉ s → powerset ({[x]} ∪ s) ≡ₚ powerset s ++ (({[x]} ∪.) <$> powerset s).
Proof.
  intros Hx. apply NoDup_Permutation.
  - apply NoDup_powerset.
  - apply NoDup_app. split_and!.
    + apply NoDup_powerset.
    + intros X HX%elem_of_powerset (Y & -> & _)%list_elem_of_fmap. set_solver.
    + apply NoDup_fmap_2_strong; [|apply NoDup_powerset].
      intros Y1 Y2 H1%elem_of_powerset H2%elem_of_powerset Heq. set_solver.
  - intros X. rewrite elem_of_app, list_elem_of_fmap, elem_of_powerset. split.
    + intros HX. destruct (decide (x ∈ X)) as [Hin|Hin].
      * right. exists (X ∖ {[x]}). split.
        -- apply set_eq. intros y. destruct (decide (y = x)); set_solver.
        -- apply elem_of_powerset. set_solver.
      * left. apply elem_of_powerset. set_solver.
    + intros [HX%elem_of_powerset|(Y & -> & HY%elem_of_powerset)]; set_solver.
Qed.

Lemma length_powerset (s : gset string) : length (powerset s) = (2 ^ size s)%nat.
Proof.
  induction s as [|x s Hx IH] using set_ind_L.
  - by rewrite powerset_empty, size_empty.
  - rewrite (powerset_insert x s Hx), length_app, length_fmap, IH.
    rewrite size_union, size_singleton by set_solver. simpl. lia.
Qed.

Lemma elem_of_gene_splits (names one_gene two_genes : gset string) :
  (one_gene, two_genes) ∈ gene_splits names
  ↔ one_gene ⊆ names ∧ two_genes ⊆ names ∖ one_gene.
Proof.
  unfold gene_splits. rewrite list_elem_of_bind. split.
  - intros (og & (tg & Heq%list_elem_of_singleton & Htg)%list_elem_of_bind & Hog).
    simplify_eq. by rewrite <-!elem_of_powerset.
  - intros [Hog Htg]. exists one_gene. split; [|by apply elem_of_powerset].
    apply list_elem_of_bind. exists two_genes.
    split; [by apply list_elem_of_singleton|by apply elem_of_powerset].
Qed.

Lemma NoDup_gene_splits (names : gset string) : NoDup (gene_splits names).
Proof.
  unfold gene_splits. apply NoDup_bind; [| |apply NoDup_powerset].
  - intros og1 og2 [og tg] _ _.
    intros (? & ?%list_elem_of_singleton & _)%list_elem_of_bind.
    intros (? & ?%list_elem_of_singleton & _)%list_elem_of_bind. congruence.
  - intros og _. apply NoDup_bind; [| |apply NoDup_powerset].
    + intros tg1 tg2 [og' tg] _ _.
      intros ?%list_elem_of_singleton ?%list_elem_of_singleton. congruence.
    + intros tg _. apply NoDup_singleton.
Qed.

Lemma gene_splits_empty : gene_splits ∅ = [(∅, ∅)].
Proof.
  unfold gene_splits. rewrite powerset_empty. csimpl.
  rewrite difference_diag_L, powerset_empty. done.
Qed.

Lemma gene_splits_insert (x : string) (s : gset string) :
  x ∉ s →
  gene_splits ({[x]} ∪ s)
  ≡ₚ gene_splits s ++ (with_one x <$> gene_splits s) ++ (with_two x <$> gene_splits s).
Proof.
  intros Hx.
  assert (Hin : ∀ og tg, (og, tg) ∈ gene_splits s → (x ∉ og) ∧ (x ∉ tg)).
  { intros og tg [??]%elem_of_gene_splits. set_solver. }
  apply NoDup_Permutation.
  - apply NoDup_gene_splits.
  - apply NoDup_app. split_and!; [apply NoDup_gene_splits| |apply NoDup_app; split_and!].
    + intros [og tg] Hs%Hin.
      rewrite elem_of_app, !list_elem_of_fmap.
      intros [([og' tg'] & Heq & _)|([og' tg'] & Heq & _)];
        unfold with_one, with_two in Heq; simplify_eq/=; set_solver.
    + apply NoDup_fmap_2_strong; [|apply NoDup_gene_splits].
      intros [og1 tg1] [og2 tg2] H1%Hin H2%Hin Heq.
      unfold with_one in Heq. simplify_eq/=. f_equal. set_solver.
    + intros p ([og1 tg1] & -> & H1%Hin)%list_elem_of_fmap
        ([og2 tg2] & Heq & H2%Hin)%list_elem_of_fmap.
      unfold with_one, with_two in Heq. simplify_eq/=. set_solver.
    + apply NoDup_fmap_2_strong; [|apply NoDup_gene_splits].
      intros [og1 tg1] [og2 tg2] H1%Hin H2%Hin Heq.
      unfold with_two in Heq. simplify_eq/=. f_equal. set_solver.
  - intros [og tg]. rewrite !elem_of_app, !list_elem_of_fmap, elem_of_gene_splits.
    split.
    + intros [Hog Htg]. destruct (decide (x ∈ og)) as [Hxo|Hxo].
      * right. left. exists (og ∖ {[x]}, tg). split.
        -- unfold with_one. simpl. f_equal.
           apply set_eq. intros y. destruct (decide (y = x)); set_solver.
        -- apply elem_of_gene_splits. set_solver.
      * destruct (decide (x ∈ tg)) as [Hxt|Hxt].
        -- right. right. exists (og, tg ∖ {[x]}). split.
           ++ unfold with_two. simpl. f_equal.
              apply set_eq. intros y. destruct (decide (y = x)); set_solver.
           ++ apply elem_of_gene_splits. set_solver.
        -- left. apply elem_of_gene_splits. set_solver.
    + intros [Hs|[([og' tg'] & Heq & Hs)|([og' tg'] & Heq & Hs)]];
        pose proof Hs as Hs'; apply elem_of_gene_splits in Hs as [??];
        try apply Hin in Hs' as [??];
        unfold with_one, with_two in *; simplify_eq/=; set_solver.
Qed.

Lemma length_gene_splits (s : gset string) : length (gene_splits s) = (3 ^ size s)%nat.
Proof.
  induction s as [|x s Hx IH] using set_ind_L.
  - by rewrite gene_splits_empty, size_empty.
  - rewrite (gene_splits_insert x s Hx), !length_app, !length_fmap, IH.
    rewrite size_union, size_singleton by set_solver. simpl. lia.
Qed.

(** ** Total probability *)

Lemma sum_over_loops_empty F : sum_over_loops ∅ F = F ∅ ∅ ∅.
Proof.
  unfold sum_over_loops. rewrite powerset_empty, gene_splits_empty. csimpl.
  rewrite !np_sum_cons, !np_sum_nil. ring.
Qed.

Lemma sum_over_loops_ext (names : gset string) F F' :
  (∀ have_trait one_gene two_genes,
     have_trait ⊆ names → one_gene ⊆ names → two_genes ⊆ names ∖ one_gene →
     F have_trait one_gene two_genes = F' have_trait one_gene two_genes) →
  sum_over_loops names F = sum_over_loops names F'.
Proof.
  intros Hext. unfold sum_over_loops.
  apply np_sum_fmap_ext. intros have_trait Hht%elem_of_powerset.
  apply np_sum_fmap_ext. intros [one_gene two_genes] [??]%elem_of_gene_splits.
  by apply Hext.
Qed.

Lemma sum_over_loops_insert (x : string) (names : gset string) F :
  x ∉ names →
  sum_over_loops ({[x]} ∪ names) F = sum_over_loops names (six_ways x F).
Proof.
  intros Hx. unfold sum_over_loops.
  rewrite (powerset_insert x names Hx), fmap_app, np_sum_app.
  rewrite <-list_fmap_compose, <-np_sum_fmap_plus.
  apply np_sum_fmap_ext. intros have_trait _. simpl.
  rewrite !(gene_splits_insert x names Hx), !fmap_app, !np_sum_app.
  rewrite <-!list_fmap_compose, <-!np_sum_fmap_plus.
  apply np_sum_fmap_ext. intros [one_gene two_genes] _. unfold six_ways, with_one, with_two. simpl. ring.
Qed.

Lemma PROBS_gene_total : PROBS_gene Zero + PROBS_gene One + PROBS_gene Two = 1.
Proof. by apply Qc_is_canon. Qed.

Lemma PROBS_trait_total g : PROBS_trait g true + PROBS_trait g false = 1.
Proof. by destruct g; apply Qc_is_canon. Qed.

Lemma prob_inherited_total fatherProb motherProb :
  prob_inherited Zero fatherProb motherProb
  + prob_inherited One fatherProb motherProb
  + prob_inherited Two fatherProb motherProb = 1.
Proof. unfold prob_inherited. ring. Qed.

Lemma get_number_genes_ext person one_gene two_genes one_gene' two_genes' :
  (∀ y, person = Some y → (y ∈ one_gene ↔ y ∈ one_gene') ∧ (y ∈ two_genes ↔ y ∈ two_genes')) →
  get_number_genes person one_gene two_genes
  = get_number_genes person one_gene' two_genes'.
Proof.
  intros Hext. destruct person as [y|]; [|done]. simpl.
  destruct (Hext y eq_refl) as [H1 H2].
  by rewrite (bool_decide_ext _ _ H1), (bool_decide_ext _ _ H2).
Qed.

(** The factor of a person only looks at the person and the two parents. *)
Lemma factor_ext row one_gene two_genes have_trait one_gene' two_genes' have_trait' :
  (∀ y, y = name row ∨ mother row = Some y ∨ father row = Some y →
        (y ∈ one_gene ↔ y ∈ one_gene') ∧ (y ∈ two_genes ↔ y ∈ two_genes')
        ∧ (y ∈ have_trait ↔ y ∈ have_trait')) →
  factor one_gene two_genes have_trait row = factor one_gene' two_genes' have_trait' row.
Proof.
  intros Hext. unfold factor, probGenes, probTrait.
  rewrite (get_number_genes_ext (Some (name row)) one_gene two_genes one_gene' two_genes').
  2:{ intros y [= <-]. destruct (Hext (name row)) as (?&?&?); auto. }
  rewrite (get_number_genes_ext (mother row) one_gene two_genes one_gene' two_genes').
  2:{ intros y Hy. destruct (Hext y) as (?&?&?); auto. }
  rewrite (get_number_genes_ext (father row) one_gene two_genes one_gene' two_genes').
  2:{ intros y Hy. destruct (Hext y) as (?&?&?); auto. }
  destruct (Hext (name row)) as (_ & _ & Ht); [auto|].
  by rewrite (bool_decide_ext _ _ Ht).
Qed.

(** The probabilities of the six ways of placing a person, given the gene
    counts of the parents, sum to one. *)
Lemma factor_six_ways row one_gene two_genes have_trait :
  name row ∉ one_gene → name row ∉ two_genes → name row ∉ have_trait →
  mother row ≠ Some (name row) → father row ≠ Some (name row) →
  six_ways (name row) (λ ht og tg, factor og tg ht row) have_trait one_gene two_genes = 1.
Proof.
  intros Hog Htg Hht Hm Hf. unfold six_ways, factor, probGenes, probTrait.
  set (x := name row) in *.
  assert (Hparent : ∀ parent og tg,
    parent ≠ Some x →
    (og = one_gene ∨ og = {[x]} ∪ one_gene) → (tg = two_genes ∨ tg = {[x]} ∪ two_genes) →
    get_number_genes parent og tg = get_number_genes parent one_gene two_genes).
  { intros parent og tg Hne Ho Ht. apply get_number_genes_ext.
    intros y ->. assert (y ≠ x) by congruence.
    destruct Ho as [->| ->], Ht as [->| ->]; set_solver. }
  rewrite !(Hparent (mother row) ({[x]} ∪ one_gene) two_genes),
    !(Hparent (mother row) one_gene ({[x]} ∪ two_genes)),
    !(Hparent (father row) ({[x]} ∪ one_gene) two_genes),
    !(Hparent (father row) one_gene ({[x]} ∪ two_genes)) by auto.
  assert (get_number_genes (Some x) one_gene two_genes = Zero) as ->.
  { simpl. by rewrite !bool_decide_eq_false_2. }
  assert (get_number_genes (Some x) ({[x]} ∪ one_gene) two_genes = One) as ->.
  { simpl. rewrite bool_decide_eq_true_2; [done|set_solver]. }
  assert (get_number_genes (Some x) one_gene ({[x]} ∪ two_genes) = Two) as ->.
  { simpl. rewrite bool_decide_eq_false_2 by done.
    rewrite bool_decide_eq_true_2; [done|set_solver]. }
  rewrite (bool_decide_eq_false_2 (x ∈ have_trait)) by done.
  rewrite (bool_decide_eq_true_2 (x ∈ {[x]} ∪ have_trait)) by set_solver.
  pose proof (PROBS_trait_total Zero) as H0.
  pose proof (PROBS_trait_total One) as H1.
  pose proof (PROBS_trait_total Two) as H2.
  set (G := λ g, match mother row, father row with
                 | None, None => PROBS_gene g
                 | _, _ => prob_inherited g
                     (prob_of_passing (get_number_genes (father row) one_gene two_genes))
                     (prob_of_passing (get_number_genes (mother row) one_gene two_genes))
                 end).
  assert (HG : G Zero + G One + G Two = 1).
  { unfold G. destruct (mother row), (father row);
      auto using prob_inherited_total, PROBS_gene_total. }
  change (G Zero * PROBS_trait Zero false + G One * PROBS_trait One false
          + G Two * PROBS_trait Two false
          + (G Zero * PROBS_trait Zero true + G One * PROBS_trait One true
             + G Two * PROBS_trait Two true) = 1).
  transitivity (G Zero * (PROBS_trait Zero true + PROBS_trait Zero false)
                + G One * (PROBS_trait One true + PROBS_trait One false)
                + G Two * (PROBS_trait Two true + PROBS_trait Two false)); [ring|].
  by rewrite H0, H1, H2, !Qcmult_1_r.
Qed.

Lemma joint_probability_empty one_gene two_genes have_trait :
  joint_probability ∅ one_gene two_genes have_trait = 1.
Proof. unfold joint_probability. by rewrite map_to_list_empty. Qed.

Lemma joint_probability_insert people x row one_gene two_genes have_trait :
  people !! x = None →
  joint_probability (<[x:=row]> people) one_gene two_genes have_trait
  = factor one_gene two_genes have_trait row
    * joint_probability people one_gene two_genes have_trait.
Proof.
  intros Hx. rewrite !joint_probability_product.
  by rewrite (map_to_list_insert people x row Hx), product_over_cons.
Qed.

Lemma joint_probability_ext people one_gene two_genes have_trait
    one_gene' two_genes' have_trait' :
  (∀ key row y, people !! key = Some row →
     y = name row ∨ mother row = Some y ∨ father row = Some y →
     (y ∈ one_gene ↔ y ∈ one_gene') ∧ (y ∈ two_genes ↔ y ∈ two_genes')
     ∧ (y ∈ have_trait ↔ y ∈ have_trait')) →
  joint_probability people one_gene two_genes have_trait
  = joint_probability people one_gene' two_genes' have_trait'.
Proof.
  intros Hext. rewrite !joint_probability_product.
  apply product_over_ext. intros key row Hrow%elem_of_map_to_list.
  apply factor_ext. intros y Hy. by eapply Hext.
Qed.

(** A non-empty population has a person of the latest generation. *)
Lemma latest_generation (generation : string → nat) (people : gmap string Person) :
  people ≠ ∅ →
  ∃ x row, people !! x = Some row
    ∧ ∀ key row', people !! key = Some row' → (generation key ≤ generation x)%nat.
Proof.
  induction people as [|k r people Hk _ IH] using map_first_key_ind; [done|].
  intros _. destruct (decide (people = ∅)) as [->|Hne].
  - exists k, r. split; [by rewrite lookup_insert_eq|].
    intros key row' Hkey. apply lookup_insert_Some in Hkey as [[<- _]|[_ Hkey]]; [done|].
    by rewrite lookup_empty in Hkey.
  - destruct (IH Hne) as (x & row & Hx & Hmax).
    destruct (decide (generation x ≤ generation k)%nat) as [Hle|Hgt].
    + exists k, r. split; [by rewrite lookup_insert_eq|].
      intros key row' Hkey. apply lookup_insert_Some in Hkey as [[<- _]|[_ Hkey]]; [done|].
      specialize (Hmax _ _ Hkey). lia.
    + exists x, row. split.
      * rewrite lookup_insert_ne; [done|]. intros ->. by rewrite Hk in Hx.
      * intros key row' Hkey.
        apply lookup_insert_Some in Hkey as [[<- _]|[_ Hkey]]; [lia|].
        by eapply Hmax.
Qed.

Section total_probability.
Variable generation : string → nat.

Lemma acyclic_parent people key row parent :
  acyclic generation people →
  people !! key = Some row →
  mother row = Some parent ∨ father row = Some parent →
  (generation parent < generation key)%nat.
Proof.
  intros Hacyclic Hkey Hparent. destruct (Hacyclic _ _ Hkey) as [Hm Hf].
  by destruct Hparent as [Heq|Heq]; rewrite Heq in *.
Qed.

Lemma six_ways_joint people x row have_trait one_gene two_genes :
  people !! x = None →
  keyed_by_name (<[x:=row]> people) →
  acyclic generation (<[x:=row]> people) →
  (∀ key row', people !! key = Some row' → (generation key ≤ generation x)%nat) →
  have_trait ⊆ dom people → one_gene ⊆ dom people → two_genes ⊆ dom people →
  six_ways x (λ ht og tg, joint_probability (<[x:=row]> people) og tg ht)
           have_trait one_gene two_genes
  = joint_probability people one_gene two_genes have_trait.
Proof.
  intros Hx Hnames Hacyclic Hmax Hht Hog Htg.
  assert (Hrow : name row = x) by (apply Hnames; by rewrite lookup_insert_eq).
  assert (Hfresh : ∀ key row' y, people !! key = Some row' →
            y = name row' ∨ mother row' = Some y ∨ father row' = Some y → y ≠ x).
  { intros key row' y Hkey Hy ->.
    assert (Hkey' : <[x:=row]> people !! key = Some row').
    { rewrite lookup_insert_ne; [done|]. intros ->. by rewrite Hx in Hkey. }
    destruct Hy as [Hy|Hy].
    - rewrite (Hnames _ _ Hkey') in Hy. subst key. by rewrite Hx in Hkey.
    - pose proof (acyclic_parent _ _ _ _ Hacyclic Hkey' Hy).
      specialize (Hmax _ _ Hkey). lia. }
  assert (Hsame : ∀ ht og tg,
            (∀ y, y ≠ x → (y ∈ og ↔ y ∈ one_gene) ∧ (y ∈ tg ↔ y ∈ two_genes)
                          ∧ (y ∈ ht ↔ y ∈ have_trait)) →
            joint_probability (<[x:=row]> people) og tg ht
            = factor og tg ht row * joint_probability people one_gene two_genes have_trait).
  { intros ht og tg Hext. rewrite joint_probability_insert by done. f_equal.
    apply joint_probability_ext. intros key row' y Hkey Hy.
    apply Hext. by eapply Hfresh. }
  unfold six_ways. rewrite !Hsame by (intros y Hy; set_solver).
  rewrite <-(Qcmult_1_l (joint_probability people one_gene two_genes have_trait)) at 7.
  rewrite <-(factor_six_ways row one_gene two_genes have_trait).
  - rewrite Hrow. unfold six_ways. ring.
  - rewrite Hrow. intros Hin%Hog. by apply not_elem_of_dom in Hx.
  - rewrite Hrow. intros Hin%Htg. by apply not_elem_of_dom in Hx.
  - rewrite Hrow. intros Hin%Hht. by apply not_elem_of_dom in Hx.
  - rewrite Hrow. intros Hm.
    assert (generation x < generation x)%nat; [|lia].
    apply (acyclic_parent _ x row x Hacyclic); [by rewrite lookup_insert_eq|by left].
  - rewrite Hrow. intros Hf.
    assert (generation x < generation x)%nat; [|lia].
    apply (acyclic_parent _ x row x Hacyclic); [by rewrite lookup_insert_eq|by right].
Qed.

Lemma sum_over_loops_joint (n : nat) (people : gmap string Person) :
  size people = n →
  keyed_by_name people →
  acyclic generation people →
  sum_over_loops (dom people) (λ ht og tg, joint_probability people og tg ht) = 1.
Proof.
  revert people. induction n as [|n IH]; intros people Hsize Hnames Hacyclic.
  - apply map_size_empty_inv in Hsize as ->.
    by rewrite dom_empty_L, sum_over_loops_empty, joint_probability_empty.
  - destruct (latest_generation generation people) as (x & row & Hx & Hmax).
    { apply map_size_non_empty_iff. lia. }
    set (people' := delete x people).
    assert (Hpeople : people = <[x:=row]> people').
    { unfold people'. by rewrite insert_delete_id. }
    assert (Hx' : people' !! x = None) by apply lookup_delete_eq.
    rewrite Hpeople in Hnames, Hacyclic |- *.
    rewrite dom_insert_L, sum_over_loops_insert by by apply not_elem_of_dom.
    transitivity (sum_over_loops (dom people')
                    (λ ht og tg, joint_probability people' og tg ht)).
    + apply sum_over_loops_ext. intros have_trait one_gene two_genes Hht Hog Htg.
      apply six_ways_joint; [done..| |done|done|set_solver].
      intros key row' [_ Hkey]%lookup_delete_Some. by eapply Hmax.
    + apply IH.
      * unfold people'. rewrite map_size_delete_Some by eauto. lia.
      * intros key row' Hkey. apply Hnames.
        rewrite lookup_insert_ne; [done|]. intros ->. by rewrite Hx' in Hkey.
      * intros key row' Hkey. apply Hacyclic.
        rewrite lookup_insert_ne; [done|]. intros ->. by rewrite Hx' in Hkey.
Qed.
End total_probability.

Lemma fails_evidence_unobserved people have_trait :
  unobserved people → fails_evidence people have_trait = false.
Proof.
  intros Hun. unfold fails_evidence. apply not_true_iff_false.
  intros ([key row] & Hin%list_elem_of_In%elem_of_map_to_list & Hbad)%existsb_exists.
  by rewrite (Hun _ _ Hin) in Hbad.
Qed.

Lemma total_probability_score people :
  total_probability people = np_sum (score people <$> hypotheses people).
Proof. reflexivity. Qed.

Lemma total_probability_unobserved people :
  unobserved people →
  total_probability people
  = sum_over_loops (dom people) (λ ht og tg, joint_probability people og tg ht).
Proof.
  intros Hun. rewrite total_probability_score. unfold hypotheses, sum_over_loops.
  rewrite np_sum_bind. apply np_sum_fmap_ext. intros have_trait _.
  rewrite fails_evidence_unobserved by done.
  rewrite <-list_fmap_compose. apply np_sum_fmap_ext. by intros [??] _.
Qed.

Lemma joint_probability_delete people key row one_gene two_genes have_trait :
  people !! key = Some row →
  joint_probability people one_gene two_genes have_trait
  = factor one_gene two_genes have_trait row
    * joint_probability (delete key people) one_gene two_genes have_trait.
Proof.
  intros Hrow. rewrite <-(insert_delete_id people key row Hrow) at 1.
  apply joint_probability_insert, lookup_delete_eq.
Qed.

(** ** Totals of a person when the loops are over *)

Lemma np_sum_fmap_zero {A} (f : A → Qc) (l : list A) :
  (∀ x, x ∈ l → f x = 0) → np_sum (f <$> l) = 0.
Proof.
  induction l as [|x l IH]; intros Hf; csimpl; [done|].
  rewrite np_sum_cons, Hf, IH by (try left; intros; apply Hf; by right). ring.
Qed.

Lemma run_gene_total people hs person row e :
  people !! person = Some row → run people hs !! person = Some e →
  prob_gene e Two + prob_gene e One + prob_gene e Zero = np_sum (score people <$> hs).
Proof.
  intros Hrow He. destruct (run_lookup people hs person row Hrow) as (e' & He' & Hgene & _).
  simplify_eq. rewrite !Hgene, <-!np_sum_fmap_plus.
  apply np_sum_fmap_ext. intros h _. apply gene_shares_sum.
Qed.

Lemma run_trait_total people hs person row e :
  people !! person = Some row → run people hs !! person = Some e →
  prob_trait e true + prob_trait e false = np_sum (score people <$> hs).
Proof.
  intros Hrow He. destruct (run_lookup people hs person row Hrow) as (e' & He' & _ & Htrait).
  simplify_eq. rewrite !Htrait, <-!np_sum_fmap_plus.
  apply np_sum_fmap_ext. intros h _. apply trait_shares_sum.
Qed.

Lemma run_nonneg people hs person e :
  run people hs !! person = Some e →
  (∀ g, 0 ≤ prob_gene e g) ∧ (∀ t, 0 ≤ prob_trait e t).
Proof.
  intros He.
  assert (is_Some (people !! person)) as [row Hrow].
  { apply elem_of_dom. rewrite <-(run_dom people hs). apply elem_of_dom. eauto. }
  destruct (run_lookup people hs person row Hrow) as (e' & He' & Hgene & Htrait).
  simplify_eq. split.
  - intros g. rewrite Hgene. apply np_sum_nonneg, Forall_fmap, Forall_forall.
    intros h _. apply gene_share_nonneg.
  - intros t. rewrite Htrait. apply np_sum_nonneg, Forall_fmap, Forall_forall.
    intros h _. apply trait_share_nonneg.
Qed.

Lemma fails_evidence_true people have_trait person row t :
  people !! person = Some row → trait row = Some t →
  bool_decide (person ∈ have_trait) ≠ t →
  fails_evidence people have_trait = true.
Proof.
  intros Hrow Ht Hne. unfold fails_evidence. apply existsb_exists.
  exists (person, row). split.
  - by apply list_elem_of_In, elem_of_map_to_list.
  - rewrite Ht. by destruct t, (bool_decide (person ∈ have_trait)).
Qed.

Lemma fails_evidence_false people have_trait :
  (∀ person row t, people !! person = Some row → trait row = Some t →
                   bool_decide (person ∈ have_trait) = t) →
  fails_evidence people have_trait = false.
Proof.
  intros Hagree. unfold fails_evidence. apply not_true_iff_false.
  intros ([person row] & Hin%list_elem_of_In%elem_of_map_to_list & Hbad)%existsb_exists.
  destruct (trait row) as [t|] eqn:Ht; [|done].
  rewrite (Hagree _ _ _ Hin Ht) in Hbad. by destruct t.
Qed.

Lemma elem_of_hypotheses people have_trait one_gene two_genes :
  (have_trait, one_gene, two_genes) ∈ hypotheses people
  ↔ have_trait ⊆ dom people ∧ fails_evidence people have_trait = false
    ∧ one_gene ⊆ dom people ∧ two_genes ⊆ dom people ∖ one_gene.
Proof.
  unfold hypotheses. rewrite list_elem_of_bind. split.
  - intros (ht & Hin & Hht%elem_of_powerset).
    destruct (fails_evidence people ht) eqn:Hfails; [by apply elem_of_nil in Hin|].
    apply list_elem_of_fmap in Hin as ([og tg] & [= -> -> ->] & Hs%elem_of_gene_splits).
    tauto.
  - intros (Hht & Hfails & Hog & Htg). exists have_trait.
    split; [|by apply elem_of_powerset]. rewrite Hfails.
    apply list_elem_of_fmap. exists (one_gene, two_genes).
    split; [done|]. by apply elem_of_gene_splits.
Qed.

Lemma observed_positive_admissible people :
  observed_positive people ⊆ dom people
  ∧ fails_evidence people (observed_positive people) = false.
Proof.
  unfold observed_positive. split.
  - apply subseteq_dom, map_filter_subseteq.
  - apply fails_evidence_false. intros person row t Hrow Ht.
    destruct t.
    + apply bool_decide_eq_true_2, elem_of_dom. exists row.
      by apply map_lookup_filter_Some.
    + apply bool_decide_eq_false_2. intros [row' Hrow']%elem_of_dom.
      apply map_lookup_filter_Some in Hrow' as [Hrow' Htrue]. simpl in Htrue.
      congruence.
Qed.

Lemma hypotheses_nonempty people : hypotheses people ≠ [].
Proof.
  destruct (observed_positive_admissible people) as [Hsub Hok].
  assert (Hin : (observed_positive people, ∅, ∅) ∈ hypotheses people).
  { apply elem_of_hypotheses. split_and!; [done|done|set_solver|set_solver]. }
  intros Heq. rewrite Heq in Hin. by apply elem_of_nil in Hin.
Qed.

Lemma total_probability_pos people : 0 < total_probability people.
Proof.
  rewrite total_probability_score. apply np_sum_pos.
  - intros Heq%fmap_nil_inv. by apply hypotheses_nonempty in Heq.
  - apply Forall_fmap, Forall_forall. intros h _. apply score_pos.
Qed.

Lemma accumulated_normalizable people person a :
  accumulated people !! person = Some a →
  prob_gene a Two + prob_gene a One + prob_gene a Zero = total_probability people
  ∧ prob_trait a true + prob_trait a false = total_probability people.
Proof.
  intros Ha.
  assert (is_Some (people !! person)) as [row Hrow].
  { apply elem_of_dom. rewrite <-(run_dom people (hypotheses people)).
    apply elem_of_dom. eauto. }
  rewrite total_probability_score. split.
  - by eapply run_gene_total.
  - by eapply run_trait_total.
Qed.

Lemma Qc_pos_nonzero (x : Qc) : 0 < x → x ≠ 0.
Proof. intros Hx ->. by apply Qclt_not_eq in Hx. Qed.

Lemma main_lookup people :
  ∃ final, main people = Some final
    ∧ ∀ person, final !! person = accumulated people !! person ≫= normalize_entry.
Proof.
  apply normalize_Some. intros person a Ha.
  destruct (accumulated_normalizable people person a Ha) as [Hg Ht].
  pose proof (Qc_pos_nonzero _ (total_probability_pos people)) as Hne.
  destruct (normalize_entry_Some a) as (e & He & _); [by rewrite Hg|by rewrite Ht|].
  eauto.
Qed.

(** ** Properties of the program *)

Lemma spec_copies_get_number_genes one_gene two_genes who :
  spec_copies one_gene two_genes who
  = copies_of (get_number_genes (Some who) one_gene two_genes).
Proof.
  unfold spec_copies, get_number_genes.
  destruct (decide (who ∈ one_gene)) as [H1|H1].
  - by rewrite bool_decide_eq_true_2.
  - rewrite (bool_decide_eq_false_2 _ H1).
    destruct (decide (who ∈ two_genes)) as [H2|H2].
    + by rewrite bool_decide_eq_true_2.
    + by rewrite bool_decide_eq_false_2.
Qed.

Lemma spec_prior_PROBS g : PROBS_gene g = spec_prior (copies_of g).
Proof. by destruct g. Qed.

Lemma spec_passing_prob_of_passing g : prob_of_passing g = spec_passing (copies_of g).
Proof. destruct g; [done|by apply Qc_this_eq|done]. Qed.

Lemma spec_child_prob_inherited g fatherProb motherProb :
  prob_inherited g fatherProb motherProb = spec_child (copies_of g) fatherProb motherProb.
Proof. by destruct g. Qed.

Lemma spec_trait_PROBS g t : PROBS_trait g t = spec_trait (copies_of g) t.
Proof. by destruct g, t. Qed.

Lemma spec_parent_passes_code one_gene two_genes parent :
  prob_of_passing (get_number_genes parent one_gene two_genes)
  = spec_parent_passes one_gene two_genes parent.
Proof.
  destruct parent as [parent|]; [|done]. unfold spec_parent_passes.
  by rewrite spec_copies_get_number_genes, spec_passing_prob_of_passing.
Qed.

Lemma probGenes_spec row one_gene two_genes :
  probGenes row one_gene two_genes = spec_gene_probability one_gene two_genes row.
Proof.
  unfold probGenes, spec_gene_probability.
  rewrite spec_copies_get_number_genes.
  destruct (mother row) as [m|] eqn:Hm, (father row) as [f|] eqn:Hf;
    rewrite <-?Hm, <-?Hf, ?spec_child_prob_inherited, ?spec_parent_passes_code;
    try done.
  apply spec_prior_PROBS.
Qed.

Lemma factor_spec one_gene two_genes have_trait row :
  factor one_gene two_genes have_trait row
  = spec_term one_gene two_genes have_trait row.
Proof.
  unfold factor, spec_term. rewrite probGenes_spec. f_equal.
  unfold probTrait. rewrite spec_copies_get_number_genes.
  by destruct (bool_decide (name row ∈ have_trait)); rewrite spec_trait_PROBS.
Qed.

Lemma product_over_foldr f rows :
  product_over f rows = foldr Qcmult 1 (f <$> rows.*2).
Proof.
  induction rows as [|[k x] rows IH]; [done|].
  rewrite product_over_cons, IH. done.
Qed.

Lemma joint_probability_spec people one_gene two_genes have_trait :
  joint_probability people one_gene two_genes have_trait
  = spec_joint_probability people one_gene two_genes have_trait.
Proof.
  rewrite joint_probability_product, product_over_foldr.
  unfold spec_joint_probability. f_equal.
  apply list_fmap_ext. intros i row _. apply factor_spec.
Qed.

(** C1. The joint probability that the evaluator returns is the product, over
    the people of the population, of the gene-count probability times the
    trait probability of each person, as the specification words them; the
    product of no term is 1.  For a person of the population the gene-count
    probability that the evaluator computes is the unconditional prior at the
    person's assigned gene count when no parent is recorded.  With two
    recorded parents, whose gene counts are read from the same hypothesis, a
    parent passes the gene with probability 0.01, the mutation rate (0
    copies), 0.5 (1 copy) or 1 - 0.01 (2 copies), and the person's probability
    is [(1-father)*(1-mother)] for 0 copies,
    [mother*(1-father) + father*(1-mother)] for 1 copy and [mother*father]
    for 2 copies. *)
Theorem joint_probability_gene_term people one_gene two_genes have_trait key row
    (Hrow : people !! key = Some row) :
  let copies (who : string) : nat :=
    if decide (who ∈ one_gene) then 1%nat
    else if decide (who ∈ two_genes) then 2%nat else 0%nat in
  let passing (parent : string) : Qc :=
    match copies parent with
    | 0%nat => hundredths 1
    | 1%nat => hundredths 50
    | _ => 1 - hundredths 1
    end in
  joint_probability people one_gene two_genes have_trait
  = spec_joint_probability people one_gene two_genes have_trait
  ∧ joint_probability ∅ one_gene two_genes have_trait = 1
  ∧ joint_probability people one_gene two_genes have_trait
    = probGenes row one_gene two_genes
      * spec_trait (copies (name row)) (bool_decide (name row ∈ have_trait))
      * spec_joint_probability (delete key people) one_gene two_genes have_trait
  ∧ (mother row = None → father row = None →
     probGenes row one_gene two_genes
     = match copies (name row) with
       | 0%nat => hundredths 96
       | 1%nat => hundredths 3
       | _ => hundredths 1
       end)
  ∧ (∀ m f, mother row = Some m → father row = Some f →
     probGenes row one_gene two_genes
     = match copies (name row) with
       | 0%nat => (1 - passing f) * (1 - passing m)
       | 1%nat => passing m * (1 - passing f) + passing f * (1 - passing m)
       | _ => passing m * passing f
       end).
Proof.
  intros copies passing. split_and!.
  - apply joint_probability_spec.
  - apply joint_probability_empty.
  - rewrite (joint_probability_delete people key row) by done.
    rewrite joint_probability_spec, factor_spec. unfold spec_term.
    by rewrite <-probGenes_spec.
  - intros Hm Hf. rewrite probGenes_spec. unfold spec_gene_probability.
    by rewrite Hm, Hf.
  - intros m f Hm Hf. rewrite probGenes_spec. unfold spec_gene_probability.
    by rewrite Hm, Hf.
Qed.

Lemma joint_probability_gene_term_witness :
  probGenes harry {["Lily"%string]} {["Harry"%string]}
  = hundredths 50 * hundredths 1.
Proof.
  refine (proj2 (proj2 (proj2 (proj2
            (joint_probability_gene_term (family None None)
               {["Lily"%string]} {["Harry"%string]} ∅ "Harry"%string harry _))))
            "Lily"%string "James"%string _ _);
    reflexivity.
Defined.

(** C2. For every pair of parent gene counts, the probabilities that the
    child has 0, 1 and 2 copies sum to exactly 1. *)
Theorem child_probabilities_sum_to_one (fatherGenes motherGenes : GeneCount) :
  let fatherProb := prob_of_passing fatherGenes in
  let motherProb := prob_of_passing motherGenes in
  prob_inherited Zero fatherProb motherProb
  + prob_inherited One fatherProb motherProb
  + prob_inherited Two fatherProb motherProb = 1.
Proof. intros fatherProb motherProb. apply prob_inherited_total. Qed.

Lemma one_parent_differs_from_prior (own known : GeneCount) :
  prob_inherited own PROBS_mutation (prob_of_passing known) ≠ PROBS_gene own
  ∧ prob_inherited own (prob_of_passing known) PROBS_mutation ≠ PROBS_gene own.
Proof. destruct own, known; split; Qc_differ. Qed.

(** C10. For a person of the population with exactly one recorded parent,
    the evaluator does not use the unconditional prior.  It applies the
    two-parent formula, [(1-father)*(1-mother)] for 0 copies,
    [mother*(1-father) + father*(1-mother)] for 1 copy and [mother*father]
    for 2 copies, where the recorded parent passes the gene with 0.01, 0.5 or
    1 - 0.01 according to the gene count the hypothesis gives that parent, and
    the missing parent, read as a parent with 0 copies, passes it with the
    mutation rate 0.01.  This value is the person's factor in the joint
    probability, and it never equals the prior. *)
Theorem one_parent_uses_transmission people key row one_gene two_genes have_trait
    (Hrow : people !! key = Some row)
    (Hone : (is_Some (mother row) ∧ father row = None)
            ∨ (mother row = None ∧ is_Some (father row))) :
  let copies (who : string) : nat :=
    if decide (who ∈ one_gene) then 1%nat
    else if decide (who ∈ two_genes) then 2%nat else 0%nat in
  let passing (parent : option string) : Qc :=
    match parent with
    | Some parent =>
        match copies parent with
        | 0%nat => hundredths 1
        | 1%nat => hundredths 50
        | _ => 1 - hundredths 1
        end
    | None => hundredths 1
    end in
  let transmitted : Qc :=
    match copies (name row) with
    | 0%nat => (1 - passing (father row)) * (1 - passing (mother row))
    | 1%nat => passing (mother row) * (1 - passing (father row))
               + passing (father row) * (1 - passing (mother row))
    | _ => passing (mother row) * passing (father row)
    end in
  let prior : Qc :=
    match copies (name row) with
    | 0%nat => hundredths 96
    | 1%nat => hundredths 3
    | _ => hundredths 1
    end in
  get_number_genes None one_gene two_genes = Zero
  ∧ prob_of_passing (get_number_genes None one_gene two_genes) = hundredths 1
  ∧ probGenes row one_gene two_genes = transmitted
  ∧ transmitted ≠ prior
  ∧ joint_probability people one_gene two_genes have_trait
    = transmitted
      * spec_trait (copies (name row)) (bool_decide (name row ∈ have_trait))
      * spec_joint_probability (delete key people) one_gene two_genes have_trait.
Proof.
  intros copies passing transmitted prior.
  assert (Hgenes : probGenes row one_gene two_genes = transmitted).
  { rewrite probGenes_spec. unfold spec_gene_probability, transmitted.
    destruct Hone as [[[m Hm] Hf]|[Hm [f Hf]]]; by rewrite Hm, Hf. }
  assert (Hprior : PROBS_gene (get_number_genes (Some (name row)) one_gene two_genes)
                   = prior).
  { unfold prior.
    change (copies (name row)) with (spec_copies one_gene two_genes (name row)).
    rewrite spec_copies_get_number_genes. apply spec_prior_PROBS. }
  split_and!; [done|done|done| |].
  - rewrite <-Hgenes, <-Hprior. unfold probGenes.
    destruct Hone as [[[m Hm] Hf]|[Hm [f Hf]]]; rewrite Hm, Hf.
    + exact (proj1 (one_parent_differs_from_prior _
                      (get_number_genes (Some m) one_gene two_genes))).
    + exact (proj2 (one_parent_differs_from_prior _
                      (get_number_genes (Some f) one_gene two_genes))).
  - rewrite (joint_probability_delete people key row) by done.
    rewrite joint_probability_spec, factor_spec. unfold spec_term.
    by rewrite <-probGenes_spec, Hgenes.
Qed.

Lemma one_parent_uses_transmission_witness :
  probGenes half_orphan {["Lily"%string]} {["Harry"%string]}
  = hundredths 50 * hundredths 1
  ∧ hundredths 50 * hundredths 1 ≠ hundredths 1.
Proof.
  pose proof (one_parent_uses_transmission
                {["Harry"%string := half_orphan]} "Harry"%string half_orphan
                {["Lily"%string]} {["Harry"%string]} ∅ eq_refl
                (or_introl (conj (ex_intro _ "Lily"%string eq_refl) eq_refl)))
    as (_ & _ & Hgenes & Hdiffer & _).
  split; [exact Hgenes|exact Hdiffer].
Defined.



(** C5. When the trait of a person is observed, every trait-positive set that
    disagrees with the observation fails the evidence check, so no hypothesis
    that is scored disagrees with it; the person's total in the bucket
    opposite to the observation is exactly 0 after each update of the
    accumulator, and so it is when the loops are over, before
    normalization. *)
Theorem contradicting_hypotheses_are_skipped people person row t
    (Hrow : people !! person = Some row) (Ht : trait row = Some t) :
  (∀ have_trait, bool_decide (person ∈ have_trait) ≠ t →
                 fails_evidence people have_trait = true)
  ∧ (∀ have_trait one_gene two_genes,
       (have_trait, one_gene, two_genes) ∈ hypotheses people →
       bool_decide (person ∈ have_trait) = t)
  ∧ (∀ hs, hs `prefix_of` hypotheses people →
       ∃ e, run people hs !! person = Some e ∧ prob_trait e (negb t) = 0)
  ∧ (∃ a, accumulated people !! person = Some a ∧ prob_trait a (negb t) = 0).
Proof.
  assert (Hskip : ∀ have_trait, bool_decide (person ∈ have_trait) ≠ t →
                                fails_evidence people have_trait = true).
  { intros have_trait. by apply fails_evidence_true with row. }
  assert (Hagree : ∀ have_trait one_gene two_genes,
            (have_trait, one_gene, two_genes) ∈ hypotheses people →
            bool_decide (person ∈ have_trait) = t).
  { intros have_trait one_gene two_genes (_ & Hok & _)%elem_of_hypotheses.
    destruct (decide (bool_decide (person ∈ have_trait) = t)) as [|Hne]; [done|].
    apply Hskip in Hne. congruence. }
  assert (Hzero : ∀ hs, hs `prefix_of` hypotheses people →
            ∃ e, run people hs !! person = Some e ∧ prob_trait e (negb t) = 0).
  { intros hs [rest Hhs].
    destruct (run_lookup people hs person row Hrow) as (e & He & _ & Htrait).
    exists e. split; [done|]. rewrite Htrait. apply np_sum_fmap_zero.
    intros [[have_trait one_gene] two_genes] Hin. unfold trait_share.
    rewrite (Hagree have_trait one_gene two_genes).
    - rewrite decide_False; [done|]. by destruct t.
    - rewrite Hhs. apply elem_of_app. by left. }
  split_and!; [done..|]. by apply Hzero.
Qed.

Lemma contradicting_hypotheses_are_skipped_witness :
  fails_evidence (single "Harry" (Some true)) ∅ = true.
Proof.
  refine (proj1 (contradicting_hypotheses_are_skipped
                   (single "Harry" (Some true)) "Harry"%string
                   {| name := "Harry"; mother := None; father := None;
                      trait := Some true |} true _ _) ∅ _);
    [reflexivity|reflexivity|discriminate].
Defined.

(** C6. Every joint probability the evaluator computes is strictly positive,
    and at least one hypothesis passes the evidence check; so, when the
    normalizer runs, the gene-count total and the trait total of every person
    are strictly positive, and the normalizer never divides by zero: it
    returns a table.  This holds for every population, in particular for the
    non-empty, structurally valid ones. *)
Theorem normalizer_never_divides_by_zero (people : gmap string Person) :
  (∀ one_gene two_genes have_trait,
     0 < joint_probability people one_gene two_genes have_trait)
  ∧ (∀ person a, accumulated people !! person = Some a →
       0 < np_sum (prob_gene a <$> gene_keys)
       ∧ 0 < np_sum (prob_trait a <$> trait_keys)
       ∧ is_Some (norm_dict gene_keys (prob_gene a))
       ∧ is_Some (norm_dict trait_keys (prob_trait a)))
  ∧ dom (accumulated people) = dom people
  ∧ is_Some (main people).
Proof.
  split_and!.
  - intros. apply joint_probability_pos.
  - intros person a Ha.
    destruct (accumulated_normalizable people person a Ha) as [Hg Ht].
    pose proof (total_probability_pos people) as Hpos.
    rewrite np_sum_gene_keys, np_sum_trait_keys, Hg, Ht.
    split_and!; [done|done|..]; unfold norm_dict.
    + rewrite np_sum_gene_keys, Hg, decide_False by by apply Qc_pos_nonzero. eauto.
    + rewrite np_sum_trait_keys, Ht, decide_False by by apply Qc_pos_nonzero. eauto.
  - exact (run_dom people (hypotheses people)).
  - destruct (main_lookup people) as (final & Hmain & _). rewrite Hmain. eauto.
Qed.

(** C4. [main] normalizes once, when the loops are over.  In the table it
    returns, for every person of the population, the three gene-count values
    sum to 1, the two trait values sum to 1, no value is negative, and each
    value is the accumulated total divided by the positive sum of the totals
    of its distribution, so the proportions within a distribution are those of
    the accumulated totals. *)
Theorem normalized_distributions people person row
    (Hrow : people !! person = Some row) :
  ∃ final e a,
    main people = Some final
    ∧ main people = normalize (accumulated people)
    ∧ dom final = dom people
    ∧ final !! person = Some e
    ∧ accumulated people !! person = Some a
    ∧ prob_gene e Two + prob_gene e One + prob_gene e Zero = 1
    ∧ prob_trait e true + prob_trait e false = 1
    ∧ (∀ g, 0 ≤ prob_gene e g)
    ∧ (∀ t, 0 ≤ prob_trait e t)
    ∧ (∃ gene_total trait_total,
         0 < gene_total ∧ 0 < trait_total
         ∧ (∀ g, prob_gene a g = prob_gene e g * gene_total)
         ∧ (∀ t, prob_trait a t = prob_trait e t * trait_total)).
Proof.
  destruct (main_lookup people) as (final & Hmain & Hfinal).
  destruct (run_lookup people (hypotheses people) person row Hrow)
    as (a & Ha & _ & _).
  fold (accumulated people) in Ha.
  destruct (accumulated_normalizable people person a Ha) as [Hg Ht].
  pose proof (total_probability_pos people) as Hpos.
  pose proof (Qc_pos_nonzero _ Hpos) as Hne.
  destruct (run_nonneg people (hypotheses people) person a Ha) as [Hgene0 Htrait0].
  destruct (normalize_entry_Some a) as (e & He & Hgene & Htrait);
    [by rewrite Hg|by rewrite Ht|].
  rewrite Hg in Hgene. rewrite Ht in Htrait.
  exists final, e, a. split_and!; try done.
  - apply set_eq. intros k. rewrite <-(run_dom people (hypotheses people)).
    fold (accumulated people). rewrite !elem_of_dom, Hfinal.
    split.
    + intros [e' He']. destruct (accumulated people !! k); [eauto|done].
    + intros [a' Ha']. rewrite Ha'. simpl.
      destruct (accumulated_normalizable people k a' Ha') as [Hg' Ht'].
      destruct (normalize_entry_Some a') as (e' & -> & _);
        [by rewrite Hg'|by rewrite Ht'|eauto].
  - by rewrite Hfinal, Ha.
  - rewrite !Hgene, <-Hg. field. by rewrite Hg.
  - rewrite !Htrait, <-Ht. field. by rewrite Ht.
  - intros g. rewrite Hgene. apply Qcmult_nonneg_nonneg; [done|].
    by apply Qclt_le_weak, Qcinv_pos.
  - intros t. rewrite Htrait. apply Qcmult_nonneg_nonneg; [done|].
    by apply Qclt_le_weak, Qcinv_pos.
  - exists (total_probability people), (total_probability people).
    split_and!; [done|done|..].
    + intros g. rewrite Hgene. by field.
    + intros t. rewrite Htrait. by field.
Qed.

Lemma normalized_distributions_witness :
  ∃ final e a,
    main (single "Harry" None) = Some final
    ∧ main (single "Harry" None) = normalize (accumulated (single "Harry" None))
    ∧ dom final = dom (single "Harry" None)
    ∧ final !! "Harry"%string = Some e
    ∧ accumulated (single "Harry" None) !! "Harry"%string = Some a
    ∧ prob_gene e Two + prob_gene e One + prob_gene e Zero = 1
    ∧ prob_trait e true + prob_trait e false = 1
    ∧ (∀ g, 0 ≤ prob_gene e g)
    ∧ (∀ t, 0 ≤ prob_trait e t)
    ∧ (∃ gene_total trait_total,
         0 < gene_total ∧ 0 < trait_total
         ∧ (∀ g, prob_gene a g = prob_gene e g * gene_total)
         ∧ (∀ t, prob_trait a t = prob_trait e t * trait_total)).
Proof.
  refine (normalized_distributions (single "Harry" None) "Harry"%string
            {| name := "Harry"; mother := None; father := None; trait := None |} _).
  reflexivity.
Defined.

(** Without evidence the sum is 1 only if the parent relation is acyclic: a
    row that is its own parent gives a sum of 2.4602. *)
Example total_probability_cycle :
  unobserved own_parent ∧ total_probability own_parent = Q2Qc (12301 # 5000).
Proof.
  split.
  - apply (bool_decide_unpack _). vm_compute. exact I.
  - apply Qc_this_eq. vm_compute. reflexivity.
Qed.

(** C3, as stated, fails: for one person without parents who is known to show
    the trait, the hypotheses that pass the evidence check have joint
    probabilities that sum to 0.0329. *)
Lemma total_probability_with_evidence :
  keyed_by_name (single "Harry" (Some true))
  ∧ acyclic (λ _, 0%nat) (single "Harry" (Some true))
  ∧ total_probability (single "Harry" (Some true)) = Q2Qc (329 # 10000)
  ∧ total_probability (single "Harry" (Some true)) ≠ 1.
Proof.
  split_and!.
  - apply (bool_decide_unpack _). vm_compute. exact I.
  - apply (bool_decide_unpack _). vm_compute. exact I.
  - apply Qc_this_eq. vm_compute. reflexivity.
  - Qc_differ.
Qed.

Lemma bind_unless {A B} (skip : A → bool) (f : A → list B) (l : list A) :
  l ≫= (λ x, if skip x then [] else f x) = filter (λ x, skip x = false) l ≫= f.
Proof.
  induction l as [|x l IH]; [done|]. rewrite bind_cons, IH.
  destruct (skip x) eqn:Hskip.
  - by rewrite filter_cons_False by congruence.
  - by rewrite filter_cons_True, bind_cons by done.
Qed.

Lemma total_probability_admissible people :
  total_probability people
  = np_sum (trait_set_score people
            <$> filter (λ have_trait, fails_evidence people have_trait = false)
                       (powerset (dom people))).
Proof.
  rewrite total_probability_score. unfold hypotheses.
  rewrite (bind_unless (fails_evidence people)), np_sum_bind.
  apply np_sum_fmap_ext. intros have_trait _. unfold trait_set_score.
  rewrite <-list_fmap_compose. apply np_sum_fmap_ext. by intros [??] _.
Qed.

Lemma np_sum_filter_split {A} (P : A → Prop) `{∀ x, Decision (P x)}
    (f : A → Qc) (l : list A) :
  np_sum (f <$> l)
  = np_sum (f <$> filter P l) + np_sum (f <$> filter (λ x, ¬ P x) l).
Proof.
  induction l as [|x l IH].
  { rewrite !filter_nil. csimpl. rewrite np_sum_nil. ring. }
  rewrite fmap_cons, np_sum_cons, IH. destruct (decide (P x)).
  - rewrite filter_cons_True, (filter_cons_False (λ x, ¬ P x)) by tauto.
    rewrite fmap_cons, np_sum_cons. ring.
  - rewrite filter_cons_False, (filter_cons_True (λ x, ¬ P x)) by tauto.
    rewrite fmap_cons, np_sum_cons. ring.
Qed.

Lemma trait_set_score_pos people have_trait : 0 < trait_set_score people have_trait.
Proof.
  unfold trait_set_score. apply np_sum_pos.
  - intros Hnil%fmap_nil_inv.
    assert (Hin : (∅, ∅) ∈ gene_splits (dom people))
      by (apply elem_of_gene_splits; set_solver).
    rewrite Hnil in Hin. by apply elem_of_nil in Hin.
  - apply Forall_fmap, Forall_forall. intros [??] _. apply joint_probability_pos.
Qed.

Lemma total_probability_observed generation people person row t :
  keyed_by_name people → acyclic generation people →
  people !! person = Some row → trait row = Some t →
  total_probability people < 1.
Proof.
  intros Hkeyed Hacyclic Hrow Ht.
  set (admissible := λ have_trait : gset string,
                       fails_evidence people have_trait = false).
  set (skipped := filter (λ have_trait, ¬ admissible have_trait)
                         (powerset (dom people))).
  assert (Hall : np_sum (trait_set_score people <$> powerset (dom people)) = 1).
  { by rewrite <-(sum_over_loops_joint generation (size people) people). }
  assert (Hskipped : 0 < np_sum (trait_set_score people <$> skipped)).
  { apply np_sum_pos.
    - intros Hnil%fmap_nil_inv.
      set (bad := if t then (∅ : gset string) else {[person]}).
      assert (Hin : bad ∈ skipped).
      { apply list_elem_of_filter. split.
        - unfold admissible.
          rewrite (fails_evidence_true people bad person row t); [done..|].
          unfold bad. destruct t.
          + rewrite bool_decide_eq_false_2; [done|set_solver].
          + rewrite bool_decide_eq_true_2; [done|set_solver].
        - apply elem_of_powerset. unfold bad. destruct t; [set_solver|].
          apply singleton_subseteq_l, elem_of_dom. eauto. }
      rewrite Hnil in Hin. by apply elem_of_nil in Hin.
    - apply Forall_fmap, Forall_forall. intros have_trait _.
      apply trait_set_score_pos. }
  rewrite total_probability_admissible.
  rewrite (np_sum_filter_split admissible) in Hall. fold skipped in Hall.
  set (kept := np_sum (trait_set_score people
                       <$> filter admissible (powerset (dom people)))) in Hall.
  change (kept < 1).
  apply (Qcplus_lt_mono_l _ _ kept) in Hskipped.
  by rewrite Qcplus_0_r, Hall in Hskipped.
Qed.

(** C3, as amended.  In a structurally valid population (every row stored
    under its name, no cycle among parents) the joint probabilities of the
    hypotheses that [main] scores sum to 1 when no trait is observed: no
    hypothesis is skipped.  When the trait of some person is observed, the
    hypotheses that contradict it are skipped and the sum is more than 0 and
    less than 1. *)
Theorem total_probability_by_evidence generation people
    (Hnames : keyed_by_name people)
    (Hacyclic : acyclic generation people) :
  (unobserved people → total_probability people = 1)
  ∧ (∀ person row t, people !! person = Some row → trait row = Some t →
       0 < total_probability people ∧ total_probability people < 1).
Proof.
  split.
  - intros Hunknown. rewrite total_probability_unobserved by done.
    by apply (sum_over_loops_joint generation (size people)).
  - intros person row t Hrow Ht. split; [apply total_probability_pos|].
    by apply (total_probability_observed generation people person row t).
Qed.

Lemma total_probability_by_evidence_witness :
  total_probability (family None None) = 1
  ∧ 0 < total_probability (family (Some true) None)
  ∧ total_probability (family (Some true) None) < 1.
Proof.
  split.
  - apply (total_probability_by_evidence family_generation (family None None)).
    + apply (bool_decide_unpack _). vm_compute. exact I.
    + apply (bool_decide_unpack _). vm_compute. exact I.
    + apply (bool_decide_unpack _). vm_compute. exact I.
  - apply (total_probability_by_evidence family_generation
             (family (Some true) None)) with "James"%string
             {| name := "James"; mother := None; father := None;
                trait := Some true |} true.
    + apply (bool_decide_unpack _). vm_compute. exact I.
    + apply (bool_decide_unpack _). vm_compute. exact I.
    + reflexivity.
    + reflexivity.
Defined.

Lemma get_number_genes_One x one_gene two_genes :
  get_number_genes (Some x) one_gene two_genes = One ↔ x ∈ one_gene.
Proof. simpl. repeat case_bool_decide; naive_solver. Qed.

Lemma get_number_genes_Two x one_gene two_genes :
  get_number_genes (Some x) one_gene two_genes = Two ↔ (x ∉ one_gene) ∧ (x ∈ two_genes).
Proof. simpl. repeat case_bool_decide; naive_solver. Qed.

(** C7. For a population of n people, the outer loop visits every subset of
    the names as a candidate trait-positive set, each once, 2^n in all; the
    hypotheses that are scored are the admissible candidates, each combined
    with every pair of the inner loops; the inner loops visit every pair of a
    one-gene set and a two-genes set taken from the rest of the names, each
    once, 3^n in all; and every assignment of a gene count to each person is
    the assignment of exactly one of these pairs. *)
Theorem enumerator_visits_every_hypothesis_once (people : gmap string Person) :
  let names := dom people in
  let n := size people in
  (NoDup (powerset names)
   ∧ (∀ have_trait, have_trait ∈ powerset names ↔ have_trait ⊆ names)
   ∧ length (powerset names) = (2 ^ n)%nat)
  ∧ hypotheses people
    = (have_trait ← filter (λ have_trait, fails_evidence people have_trait = false)
                          (powerset names);
       (λ '(one_gene, two_genes), (have_trait, one_gene, two_genes))
         <$> gene_splits names)
  ∧ (NoDup (gene_splits names)
     ∧ (∀ one_gene two_genes,
          (one_gene, two_genes) ∈ gene_splits names
          ↔ one_gene ⊆ names ∧ two_genes ⊆ names ∖ one_gene)
     ∧ (∀ one_gene two_genes,
          (one_gene, two_genes) ∈ gene_splits names → one_gene ## two_genes)
     ∧ length (gene_splits names) = (3 ^ n)%nat)
  ∧ (∀ assignment : string → GeneCount,
       ∃ one_gene two_genes,
         (one_gene, two_genes) ∈ gene_splits names
         ∧ (∀ x, x ∈ names →
                 get_number_genes (Some x) one_gene two_genes = assignment x)
         ∧ (∀ one_gene' two_genes',
              (one_gene', two_genes') ∈ gene_splits names →
              (∀ x, x ∈ names →
                    get_number_genes (Some x) one_gene' two_genes' = assignment x) →
              one_gene' = one_gene ∧ two_genes' = two_genes)).
Proof.
  intros names n.
  assert (Hn : n = size names) by (unfold n, names; by rewrite size_dom).
  split_and!.
  - apply NoDup_powerset.
  - intros have_trait. apply elem_of_powerset.
  - rewrite Hn. apply length_powerset.
  - unfold hypotheses. fold names.
    apply (bind_unless (fails_evidence people)).
  - apply NoDup_gene_splits.
  - intros one_gene two_genes. apply elem_of_gene_splits.
  - intros one_gene two_genes [_ Htg]%elem_of_gene_splits. set_solver.
  - rewrite Hn. apply length_gene_splits.
  - intros assignment.
    exists (filter (λ x, assignment x = One) names),
           (filter (λ x, assignment x = Two) names).
    split_and!.
    + apply elem_of_gene_splits. split.
      * intros x [_ Hx]%elem_of_filter. done.
      * intros x [Hx2 Hx]%elem_of_filter. apply elem_of_difference. split; [done|].
        intros [Hx1 _]%elem_of_filter. congruence.
    + intros x Hx. destruct (assignment x) eqn:Hax.
      * simpl. rewrite !bool_decide_eq_false_2; [done|..];
          intros [? _]%elem_of_filter; congruence.
      * apply get_number_genes_One, elem_of_filter. done.
      * apply get_number_genes_Two. split.
        -- intros [? _]%elem_of_filter. congruence.
        -- by apply elem_of_filter.
    + intros one_gene' two_genes' [Hog Htg]%elem_of_gene_splits Hassign. split.
      * apply set_eq. intros x. rewrite elem_of_filter. split.
        -- intros Hx. split; [|by apply Hog].
           rewrite <-Hassign by by apply Hog. by apply get_number_genes_One.
        -- intros [Hx Hin]. rewrite <-Hassign in Hx by done.
           by apply get_number_genes_One in Hx.
      * apply set_eq. intros x. rewrite elem_of_filter. split.
        -- intros Hx. pose proof (Htg x Hx) as [Hin Hno]%elem_of_difference.
           split; [|done]. rewrite <-Hassign by done.
           by apply get_number_genes_Two.
        -- intros [Hx Hin]. rewrite <-Hassign in Hx by done.
           by apply get_number_genes_Two in Hx as [_ ?].
Qed.

(** ** One person, no parents, nothing observed *)

Lemma np_sum_hypotheses_unobserved people (f : Outcome → Qc) :
  unobserved people →
  np_sum (f <$> hypotheses people)
  = sum_over_loops (dom people) (λ ht og tg, f (ht, og, tg)).
Proof.
  intros Hun. unfold hypotheses, sum_over_loops.
  rewrite np_sum_bind. apply np_sum_fmap_ext. intros have_trait _.
  rewrite fails_evidence_unobserved by done.
  rewrite <-list_fmap_compose. apply np_sum_fmap_ext. by intros [??] _.
Qed.

Lemma single_joint_probability who t one_gene two_genes have_trait :
  joint_probability (single who t) one_gene two_genes have_trait
  = PROBS_gene (get_number_genes (Some who) one_gene two_genes)
    * PROBS_trait (get_number_genes (Some who) one_gene two_genes)
                  (bool_decide (who ∈ have_trait)).
Proof.
  unfold joint_probability, single. rewrite map_to_list_singleton.
  cbn [foldl]. unfold probGenes, probTrait. cbn [name mother father].
  destruct (bool_decide (who ∈ have_trait)); ring.
Qed.

Lemma sum_over_one_person who (F : gset string → gset string → gset string → Qc) :
  sum_over_loops {[who]} F
  = (F ∅ ∅ ∅ + F ∅ {[who]} ∅ + F ∅ ∅ {[who]})
    + (F {[who]} ∅ ∅ + F {[who]} {[who]} ∅ + F {[who]} ∅ {[who]}).
Proof.
  rewrite <-(right_id_L ∅ (∪) {[who]}) at 1.
  rewrite sum_over_loops_insert, sum_over_loops_empty by set_solver.
  unfold six_ways. by rewrite !(right_id_L ∅ (∪)).
Qed.

Lemma single_person_table (who : string) :
  ∃ final e,
    main (single who None) = Some final
    ∧ final !! who = Some e
    ∧ prob_gene e Zero = hundredths 96
    ∧ prob_gene e One = hundredths 3
    ∧ prob_gene e Two = hundredths 1
    ∧ prob_trait e true = Q2Qc (329 # 10000)
    ∧ prob_trait e false = Q2Qc (9671 # 10000).
Proof.
  set (people := single who None).
  set (row := {| name := who; mother := None; father := None; trait := None |}).
  assert (Hrow : people !! who = Some row) by apply lookup_singleton_eq.
  assert (Hun : unobserved people) by by apply map_Forall_singleton.
  assert (Htotal : total_probability people = 1).
  { rewrite total_probability_unobserved by done.
    apply (sum_over_loops_joint (λ _, 0%nat) (size people)); [done|..];
      by apply map_Forall_singleton. }
  destruct (main_lookup people) as (final & Hmain & Hfinal).
  destruct (run_lookup people (hypotheses people) who row Hrow)
    as (a & Ha & Hgene & Htrait).
  fold (accumulated people) in Ha.
  destruct (accumulated_normalizable people who a Ha) as [Hg Ht].
  destruct (normalize_entry_Some a) as (e & He & Hgene' & Htrait');
    [by rewrite Hg, Htotal|by rewrite Ht, Htotal|].
  rewrite Hg, Htotal in Hgene'. rewrite Ht, Htotal in Htrait'.
  assert (Hg0 : get_number_genes (Some who) ∅ ∅ = Zero) by done.
  assert (Hg1 : get_number_genes (Some who) {[who]} ∅ = One).
  { apply get_number_genes_One. set_solver. }
  assert (Hg2 : get_number_genes (Some who) ∅ {[who]} = Two).
  { apply get_number_genes_Two. set_solver. }
  assert (Ht0 : bool_decide (who ∈ (∅ : gset string)) = false).
  { apply bool_decide_eq_false_2. set_solver. }
  assert (Ht1 : bool_decide (who ∈ ({[who]} : gset string)) = true).
  { apply bool_decide_eq_true_2. set_solver. }
  assert (Hdom : dom people = {[who]}) by apply dom_singleton_L.
  exists final, e. split; [done|]. split; [by rewrite Hfinal, Ha|].
  split_and!.
  all: rewrite ?Hgene', ?Htrait', ?Hgene, ?Htrait.
  all: rewrite np_sum_hypotheses_unobserved, Hdom, sum_over_one_person by done.
  all: unfold gene_share, trait_share, score, people.
  all: rewrite !single_joint_probability, ?Hg0, ?Hg1, ?Hg2, ?Ht0, ?Ht1.
  all: by apply Qc_this_eq.
Qed.

(** C8, as amended.  For a population of one person without parents and with
    unknown trait, the table [main] returns gives the gene counts the
    unconditional prior, 0.96, 0.03 and 0.01, exactly; the trait has
    probability 0.96*0.01 + 0.03*0.56 + 0.01*0.65, which is 0.0329, and its
    absence has probability 0.9671. *)
Theorem single_person_posterior (who : string) :
  ∃ final e,
    main (single who None) = Some final
    ∧ final !! who = Some e
    ∧ prob_gene e Zero = hundredths 96
    ∧ prob_gene e One = hundredths 3
    ∧ prob_gene e Two = hundredths 1
    ∧ prob_trait e true
      = hundredths 96 * hundredths 1 + hundredths 3 * hundredths 56
        + hundredths 1 * hundredths 65
    ∧ prob_trait e true = Q2Qc (329 # 10000)
    ∧ prob_trait e false = Q2Qc (9671 # 10000).
Proof.
  destruct (single_person_table who)
    as (final & e & Hmain & He & H0 & H1 & H2 & Htrue & Hfalse).
  exists final, e. split_and!; try done.
  rewrite Htrue. by apply Qc_this_eq.
Qed.

(** C8, as stated, fails: the trait posterior of the single person is not
    0.0365 and 0.9635. *)
Lemma single_person_posterior_is_not_0365 :
  ¬ ∃ final e,
      main (single "Harry" None) = Some final
      ∧ final !! "Harry"%string = Some e
      ∧ prob_gene e Zero = hundredths 96
      ∧ prob_gene e One = hundredths 3
      ∧ prob_gene e Two = hundredths 1
      ∧ prob_trait e true = Q2Qc (365 # 10000)
      ∧ prob_trait e false = Q2Qc (9635 # 10000).
Proof.
  intros (final & e & Hmain & He & _ & _ & _ & Htrue & _).
  destruct (single_person_table "Harry")
    as (final' & e' & Hmain' & He' & _ & _ & _ & Htrue' & _).
  rewrite Hmain in Hmain'. injection Hmain' as <-.
  rewrite He in He'. injection He' as <-.
  rewrite Htrue' in Htrue. revert Htrue. Qc_differ.
Qed.

(** ** Further properties: loading *)

Lemma load_data_snoc rows row :
  load_data (rows ++ [row]) = <[row_name row := load_row row]> (load_data rows).
Proof. unfold load_data. by rewrite foldl_app. Qed.

Lemma or_None_not_blank s : or_None s ≠ Some ""%string.
Proof. unfold or_None. case_decide; congruence. Qed.

Lemma load_data_keyed (rows : list Row) : keyed_by_name (load_data rows).
Proof.
  induction rows as [|row rows IH] using rev_ind.
  - apply map_Forall_empty.
  - rewrite load_data_snoc. by apply map_Forall_insert_2.
Qed.

Lemma load_data_dom (rows : list Row) :
  dom (load_data rows) = list_to_set (row_name <$> rows).
Proof.
  induction rows as [|row rows IH] using rev_ind.
  - change (load_data []) with (∅ : gmap string Person). by rewrite dom_empty_L.
  - rewrite load_data_snoc, dom_insert_L, IH, fmap_app, list_to_set_app_L.
    set_solver.
Qed.

Lemma load_data_lookup (rows : list Row) (who : string) :
  load_data rows !! who
  = load_row <$> last (filter (λ row, row_name row = who) rows).
Proof.
  induction rows as [|row rows IH] using rev_ind; [done|].
  rewrite load_data_snoc, filter_app.
  destruct (decide (row_name row = who)) as [<-|Hne].
  - rewrite lookup_insert_eq, filter_cons_True, filter_nil by done.
    by rewrite last_snoc.
  - rewrite lookup_insert_ne, filter_cons_False, filter_nil, app_nil_r by done.
    done.
Qed.

(** X1. Whatever the rows, [load_data] stores every record under its own
    name, the keys are exactly the names that occur in the rows, and no
    stored parent is the empty string. *)
Theorem load_data_keyed_by_name (rows : list Row) :
  keyed_by_name (load_data rows)
  ∧ dom (load_data rows) = list_to_set (row_name <$> rows)
  ∧ map_Forall (λ _ person, mother person ≠ Some ""%string
                            ∧ father person ≠ Some ""%string) (load_data rows).
Proof.
  split_and!; [apply load_data_keyed|apply load_data_dom|].
  intros who person Hwho. rewrite load_data_lookup in Hwho.
  destruct (last _) as [row|]; [|done]. injection Hwho as <-.
  split; apply or_None_not_blank.
Qed.

(** X2. When several rows carry the same name the last one wins: the record
    stored under a name is the one built from the last row with that name,
    and a name that occurs in no row has no record. *)
Theorem load_data_last_row_wins (rows : list Row) (who : string) :
  (load_data rows !! who
   = load_row <$> last (filter (λ row, row_name row = who) rows))
  ∧ (who ∉ row_name <$> rows → load_data rows !! who = None)
  ∧ (∀ row, load_data (rows ++ [row]) !! row_name row = Some (load_row row)).
Proof.
  split_and!.
  - apply load_data_lookup.
  - intros Hnot. apply not_elem_of_dom. rewrite load_data_dom.
    by rewrite elem_of_list_to_set.
  - intros row. by rewrite load_data_snoc, lookup_insert_eq.
Qed.

(** ** Further properties: the evaluator *)

Lemma Qcmult_lt_1 (a b : Qc) : 0 < a → a < 1 → 0 < b → b < 1 → a * b < 1.
Proof.
  intros Ha0 Ha1 Hb0 Hb1. apply Qclt_trans with (1 * b).
  - by apply Qcmult_lt_mono_pos_r.
  - by rewrite Qcmult_1_l.
Qed.

Lemma prob_inherited_lt_1 own fatherGenes motherGenes :
  prob_inherited own (prob_of_passing fatherGenes) (prob_of_passing motherGenes) < 1.
Proof. by destruct own, fatherGenes, motherGenes. Qed.

Lemma PROBS_gene_lt_1 g : PROBS_gene g < 1.
Proof. by destruct g. Qed.

Lemma PROBS_trait_lt_1 g t : PROBS_trait g t < 1.
Proof. by destruct g, t. Qed.

Lemma factor_lt_1 one_gene two_genes have_trait person :
  factor one_gene two_genes have_trait person < 1.
Proof.
  unfold factor. apply Qcmult_lt_1.
  - apply probGenes_pos.
  - unfold probGenes. destruct (mother person), (father person);
      auto using prob_inherited_lt_1, PROBS_gene_lt_1.
  - apply probTrait_pos.
  - unfold probTrait. case_bool_decide; apply PROBS_trait_lt_1.
Qed.

Lemma product_over_lt_1 f rows :
  rows ≠ [] → (∀ k x, (k, x) ∈ rows → 0 < f x ∧ f x < 1) → product_over f rows < 1.
Proof.
  induction rows as [|[k x] rows IH]; intros Hne Hf; [done|].
  rewrite product_over_cons.
  destruct (Hf k x) as [Hx0 Hx1]; [left|].
  destruct rows as [|kx rows].
  - unfold product_over. simpl. by rewrite Qcmult_1_r.
  - apply Qcmult_lt_1; [done|done|..].
    + apply product_over_pos. intros k' x' Hin. apply (Hf k' x'). by right.
    + apply IH; [done|]. intros k' x' Hin. apply (Hf k' x'). by right.
Qed.

(** X3. A joint probability never exceeds 1, and it is 1 only for the empty
    population, whose product has no factor. *)
Theorem joint_probability_at_most_one people one_gene two_genes have_trait :
  joint_probability people one_gene two_genes have_trait ≤ 1
  ∧ (joint_probability people one_gene two_genes have_trait = 1 ↔ people = ∅).
Proof.
  assert (Hlt : people ≠ ∅ →
                joint_probability people one_gene two_genes have_trait < 1).
  { intros Hne. rewrite joint_probability_product. apply product_over_lt_1.
    - intros Hnil. by apply map_to_list_empty_iff in Hnil.
    - intros k x _. split; [apply factor_pos|apply factor_lt_1]. }
  destruct (decide (people = ∅)) as [->|Hne].
  - rewrite joint_probability_empty. split; [apply Qcle_refl|done].
  - split; [by apply Qclt_le_weak, Hlt|]. split; [|done].
    intros Heq. specialize (Hlt Hne). rewrite Heq in Hlt.
    by apply Qclt_not_eq in Hlt.
Qed.

Lemma joint_probability_union people1 people2 one_gene two_genes have_trait :
  people1 ##ₘ people2 →
  joint_probability (people1 ∪ people2) one_gene two_genes have_trait
  = joint_probability people1 one_gene two_genes have_trait
    * joint_probability people2 one_gene two_genes have_trait.
Proof.
  induction people1 as [|k r people1 Hk IH] using map_ind; intros Hdisj.
  - rewrite (left_id_L ∅ (∪)), joint_probability_empty. ring.
  - apply map_disjoint_insert_l in Hdisj as [Hk2 Hdisj].
    rewrite <-insert_union_l, !joint_probability_insert, IH; [ring|done..|].
    apply lookup_union_None. done.
Qed.

(** X4. Families that share no person are scored independently: the joint
    probability of the union of two disjoint populations is the product of
    their joint probabilities. *)
Theorem joint_probability_of_disjoint_union
    people1 people2 one_gene two_genes have_trait
    (Hdisjoint : people1 ##ₘ people2) :
  joint_probability (people1 ∪ people2) one_gene two_genes have_trait
  = joint_probability people1 one_gene two_genes have_trait
    * joint_probability people2 one_gene two_genes have_trait.
Proof. by apply joint_probability_union. Qed.

Lemma joint_probability_of_disjoint_union_witness :
  joint_probability (single "Harry" None ∪ single "Lily" (Some true))
                    {["Lily"%string]} ∅ ∅
  = joint_probability (single "Harry" None) {["Lily"%string]} ∅ ∅
    * joint_probability (single "Lily" (Some true)) {["Lily"%string]} ∅ ∅.
Proof.
  apply joint_probability_of_disjoint_union.
  apply map_disjoint_singleton_l, lookup_singleton_ne. discriminate.
Defined.

Lemma elem_of_mentioned people key row y :
  people !! key = Some row →
  y = name row ∨ mother row = Some y ∨ father row = Some y →
  y ∈ mentioned people.
Proof.
  intros Hrow Hy. unfold mentioned.
  apply elem_of_list_to_set, list_elem_of_bind. exists (key, row).
  split; [|by apply elem_of_map_to_list].
  rewrite elem_of_cons, elem_of_app.
  destruct Hy as [->|[Hm|Hf]]; [by left|right; left|right; right].
  - rewrite Hm. simpl. left.
  - rewrite Hf. simpl. left.
Qed.

(** X5. The evaluator looks at no name but the people of the population and
    their recorded parents: members of the three sets that the population
    does not mention change nothing. *)
Theorem joint_probability_ignores_strangers people one_gene two_genes have_trait :
  joint_probability people one_gene two_genes have_trait
  = joint_probability people (one_gene ∩ mentioned people)
      (two_genes ∩ mentioned people) (have_trait ∩ mentioned people).
Proof.
  apply joint_probability_ext. intros key row y Hrow Hy.
  pose proof (elem_of_mentioned people key row y Hrow Hy). set_solver.
Qed.

Lemma get_number_genes_overlap person one_gene two_genes :
  get_number_genes person one_gene two_genes
  = get_number_genes person one_gene (two_genes ∖ one_gene).
Proof.
  destruct person as [y|]; [|done]. simpl.
  destruct (bool_decide_reflect (y ∈ one_gene)); [done|].
  rewrite (bool_decide_ext (y ∈ two_genes) (y ∈ two_genes ∖ one_gene)); [done|].
  set_solver.
Qed.

(** X6. A name that is in both gene sets counts as one copy: the evaluator
    and the accumulator give the same result when the two-genes set is
    replaced by its part outside the one-gene set. *)
Theorem one_gene_takes_precedence probabilities people one_gene two_genes have_trait p :
  joint_probability people one_gene two_genes have_trait
  = joint_probability people one_gene (two_genes ∖ one_gene) have_trait
  ∧ update probabilities one_gene two_genes have_trait p
    = update probabilities one_gene (two_genes ∖ one_gene) have_trait p
  ∧ (∀ person, person ∈ one_gene →
               get_number_genes (Some person) one_gene two_genes = One).
Proof.
  split_and!.
  - rewrite !joint_probability_product. apply product_over_ext.
    intros key row _. unfold factor, probGenes, probTrait.
    by rewrite <-!get_number_genes_overlap.
  - apply map_eq. intros person. rewrite !update_lookup.
    destruct (probabilities !! person) as [e|]; [|done]. simpl. f_equal.
    unfold update_entry. by rewrite <-get_number_genes_overlap.
  - intros person Hin. by apply get_number_genes_One.
Qed.

(** X7. In every hypothesis that [main] scores, a recorded parent who is not
    a person of the population has no copy of the gene, so that parent passes
    the gene with the mutation rate. *)
Theorem absent_parent_has_no_gene people have_trait one_gene two_genes parent
    (Hscored : (have_trait, one_gene, two_genes) ∈ hypotheses people)
    (Habsent : parent ∉ dom people) :
  get_number_genes (Some parent) one_gene two_genes = Zero
  ∧ prob_of_passing (get_number_genes (Some parent) one_gene two_genes)
    = PROBS_mutation.
Proof.
  apply elem_of_hypotheses in Hscored as (_ & _ & Hog & Htg).
  assert (get_number_genes (Some parent) one_gene two_genes = Zero) as ->; [|done].
  simpl. rewrite !bool_decide_eq_false_2; [done|set_solver..].
Qed.

Lemma absent_parent_has_no_gene_witness :
  get_number_genes (Some "Lily"%string) ∅ ∅ = Zero
  ∧ prob_of_passing (get_number_genes (Some "Lily"%string) ∅ ∅) = PROBS_mutation.
Proof.
  apply (absent_parent_has_no_gene (single "Harry" None) ∅ ∅ ∅ "Lily"%string).
  - apply elem_of_hypotheses. split_and!; [set_solver|reflexivity|set_solver..].
  - unfold single. rewrite dom_singleton_L. apply not_elem_of_singleton. discriminate.
Defined.

(** ** Further properties: the accumulator *)

(** X8. The order in which the hypotheses are processed does not matter: two
    runs of the accumulator over the same hypotheses, in any two orders, leave
    the same totals for every person. *)
Theorem run_in_any_order people hs hs' person row
    (Hperm : hs ≡ₚ hs') (Hrow : people !! person = Some row) :
  ∃ e e',
    run people hs !! person = Some e
    ∧ run people hs' !! person = Some e'
    ∧ (∀ g, prob_gene e g = prob_gene e' g)
    ∧ (∀ t, prob_trait e t = prob_trait e' t).
Proof.
  destruct (run_lookup people hs person row Hrow) as (e & He & Hgene & Htrait).
  destruct (run_lookup people hs' person row Hrow) as (e' & He' & Hgene' & Htrait').
  exists e, e'. split_and!; [done|done|..].
  - intros g. by rewrite Hgene, Hgene', Hperm.
  - intros t. by rewrite Htrait, Htrait', Hperm.
Qed.

Lemma run_in_any_order_witness :
  ∃ e e',
    run (single "Harry" None) [(∅, ∅, ∅); ({["Harry"%string]}, ∅, ∅)]
      !! "Harry"%string = Some e
    ∧ run (single "Harry" None) [({["Harry"%string]}, ∅, ∅); (∅, ∅, ∅)]
        !! "Harry"%string = Some e'
    ∧ (∀ g, prob_gene e g = prob_gene e' g)
    ∧ (∀ t, prob_trait e t = prob_trait e' t).
Proof.
  apply (run_in_any_order (single "Harry" None) _ _ "Harry"%string
           {| name := "Harry"; mother := None; father := None; trait := None |}).
  - apply perm_swap.
  - reflexivity.
Defined.

(** X9. After any number of updates made by [main], the three gene-count
    totals of a person and the two trait totals of that person have the same
    sum, the sum of the joint probabilities added so far; so all the people
    have the same sums. *)
Theorem totals_agree people hs person1 person2 e1 e2
    (He1 : run people hs !! person1 = Some e1)
    (He2 : run people hs !! person2 = Some e2) :
  prob_gene e1 Two + prob_gene e1 One + prob_gene e1 Zero
  = np_sum (score people <$> hs)
  ∧ prob_trait e1 true + prob_trait e1 false
    = prob_gene e1 Two + prob_gene e1 One + prob_gene e1 Zero
  ∧ prob_gene e2 Two + prob_gene e2 One + prob_gene e2 Zero
    = prob_gene e1 Two + prob_gene e1 One + prob_gene e1 Zero.
Proof.
  assert (Hin : ∀ person e, run people hs !! person = Some e →
                            is_Some (people !! person)).
  { intros person e He. apply elem_of_dom. rewrite <-(run_dom people hs).
    apply elem_of_dom. eauto. }
  destruct (Hin _ _ He1) as [row1 Hrow1], (Hin _ _ He2) as [row2 Hrow2].
  rewrite (run_gene_total people hs person1 row1 e1),
    (run_trait_total people hs person1 row1 e1),
    (run_gene_total people hs person2 row2 e2); done.
Qed.

Lemma totals_agree_witness :
  ∃ e, run (single "Harry" None) [(∅, ∅, ∅)] !! "Harry"%string = Some e
       ∧ prob_trait e true + prob_trait e false
         = prob_gene e Two + prob_gene e One + prob_gene e Zero.
Proof.
  destruct (run_lookup (single "Harry" None) [(∅, ∅, ∅)] "Harry"%string
              {| name := "Harry"; mother := None; father := None; trait := None |}
              eq_refl) as (e & He & _).
  exists e. split; [exact He|].
  exact (proj1 (proj2 (totals_agree (single "Harry" None) [(∅, ∅, ∅)]
                         "Harry"%string "Harry"%string e e He He))).
Defined.

(** ** Further properties: the normalizer *)

(** X11. Normalizing the table that [main] returns a second time changes no
    value, and neither pass adds or removes a person. *)
Theorem normalize_twice_after_main (people : gmap string Person) :
  ∃ final final',
    main people = Some final
    ∧ normalize final = Some final'
    ∧ dom final = dom people
    ∧ dom final' = dom people
    ∧ ∀ person e, final !! person = Some e →
        ∃ e', final' !! person = Some e'
          ∧ (∀ g, prob_gene e' g = prob_gene e g)
          ∧ (∀ t, prob_trait e' t = prob_trait e t).
Proof.
  destruct (main_lookup people) as (final & Hmain & Hfinal).
  pose proof (Qc_pos_nonzero _ (total_probability_pos people)) as Hne.
  assert (Hentry : ∀ k, final !! k = None ∧ accumulated people !! k = None
            ∨ ∃ a e, accumulated people !! k = Some a ∧ final !! k = Some e
                ∧ prob_gene e Two + prob_gene e One + prob_gene e Zero = 1
                ∧ prob_trait e true + prob_trait e false = 1).
  { intros k. rewrite Hfinal.
    destruct (accumulated people !! k) as [a|] eqn:Ha; [right|by left].
    destruct (accumulated_normalizable people k a Ha) as [Hg Ht].
    destruct (normalize_entry_Some a) as (e & He & Hgene & Htrait);
      [by rewrite Hg|by rewrite Ht|].
    exists a, e. split_and!; [done|done|..].
    - rewrite !Hgene. field. by rewrite Hg.
    - rewrite !Htrait. field. by rewrite Ht. }
  assert (Hdom : dom final = dom people).
  { rewrite <-(run_dom people (hypotheses people)). fold (accumulated people).
    apply set_eq. intros k. rewrite !elem_of_dom.
    destruct (Hentry k) as [[-> ->]|(a & e & -> & -> & _)]; [done|].
    split; eauto. }
  destruct (normalize_Some final) as (final' & Hnorm & Hlook).
  { intros k e He. destruct (Hentry k) as [[Hk _]|(a & e0 & _ & Hk & Hg & Ht)];
      [congruence|].
    assert (e0 = e) as -> by congruence.
    destruct (normalize_entry_Some e) as (e' & -> & _);
      [by rewrite Hg|by rewrite Ht|eauto]. }
  assert (Hsame : ∀ person e, final !! person = Some e →
            ∃ e', final' !! person = Some e'
              ∧ (∀ g, prob_gene e' g = prob_gene e g)
              ∧ (∀ t, prob_trait e' t = prob_trait e t)).
  { intros person e He.
    destruct (Hentry person) as [[Hk _]|(a & e0 & _ & Hk & Hg & Ht)]; [congruence|].
    assert (e0 = e) as -> by congruence.
    destruct (normalize_entry_Some e) as (e' & He' & Hgene & Htrait);
      [by rewrite Hg|by rewrite Ht|].
    exists e'. rewrite Hlook, He. split; [done|]. split.
    - intros g. rewrite Hgene, Hg. by field.
    - intros t. rewrite Htrait, Ht. by field. }
  exists final, final'. split_and!; [done|done|done| |done].
  rewrite <-Hdom. apply set_eq. intros k. rewrite !elem_of_dom. split.
  - intros [e' He']. rewrite Hlook in He'.
    destruct (final !! k); [eauto|done].
  - intros [e He]. destruct (Hsame k e He) as (e' & -> & _). eauto.
Qed.

(** ** Further properties: the whole computation *)

(** X12. With an empty population [main] scores exactly one hypothesis, the
    three empty sets, of probability 1, and returns the empty table. *)
Theorem main_of_empty_population :
  hypotheses ∅ = [(∅, ∅, ∅)]
  ∧ joint_probability ∅ ∅ ∅ ∅ = 1
  ∧ accumulated ∅ = ∅
  ∧ main ∅ = Some ∅.
Proof.
  assert (Hhyp : hypotheses ∅ = [(∅, ∅, ∅)]).
  { unfold hypotheses. rewrite dom_empty_L, powerset_empty, gene_splits_empty.
    csimpl. unfold fails_evidence. by rewrite map_to_list_empty. }
  assert (Hacc : accumulated ∅ = ∅).
  { unfold accumulated. rewrite Hhyp. unfold run, initial. rewrite fmap_empty.
    cbn [foldl step]. unfold update. by rewrite dom_empty_L, elements_empty. }
  split_and!; [done|apply joint_probability_empty|done|].
  unfold main. rewrite Hacc. unfold normalize.
  by rewrite dom_empty_L, elements_empty.
Qed.

Lemma run_opposite_bucket people hs person row t e :
  people !! person = Some row → trait row = Some t →
  (∀ h, h ∈ hs → h ∈ hypotheses people) →
  run people hs !! person = Some e →
  prob_trait e (negb t) = 0.
Proof.
  intros Hrow Ht Hsub He.
  destruct (run_lookup people hs person row Hrow) as (e' & He' & _ & Htrait).
  simplify_eq. rewrite Htrait. apply np_sum_fmap_zero.
  intros [[have_trait one_gene] two_genes] Hin. unfold trait_share.
  apply Hsub, elem_of_hypotheses in Hin as (_ & Hok & _).
  destruct (decide (bool_decide (person ∈ have_trait) = t)) as [Heq|Hne].
  - rewrite Heq, decide_False; [done|]. by destruct t.
  - rewrite (fails_evidence_true people have_trait person row t) in Hok; done.
Qed.

(** X13. A person whose trait is observed gets, in the table [main] returns,
    probability exactly 1 for the observed value and 0 for the other one. *)
Theorem observed_trait_is_certain people person row t
    (Hrow : people !! person = Some row) (Ht : trait row = Some t) :
  ∃ final e,
    main people = Some final
    ∧ final !! person = Some e
    ∧ prob_trait e t = 1
    ∧ prob_trait e (negb t) = 0.
Proof.
  destruct (main_lookup people) as (final & Hmain & Hfinal).
  destruct (run_lookup people (hypotheses people) person row Hrow)
    as (a & Ha & _ & _).
  fold (accumulated people) in Ha.
  destruct (accumulated_normalizable people person a Ha) as [Hg Htot].
  pose proof (Qc_pos_nonzero _ (total_probability_pos people)) as Hne.
  assert (Hzero : prob_trait a (negb t) = 0).
  { by apply (run_opposite_bucket people (hypotheses people) person row). }
  destruct (normalize_entry_Some a) as (e & He & _ & Htrait);
    [by rewrite Hg|by rewrite Htot|].
  rewrite Htot in Htrait.
  exists final, e. split_and!; [done|by rewrite Hfinal, Ha|..].
  - rewrite Htrait.
    assert (prob_trait a t = total_probability people) as ->; [|by field].
    rewrite <-Htot. destruct t; simpl in Hzero; rewrite Hzero; ring.
  - rewrite Htrait, Hzero. by field.
Qed.

Lemma observed_trait_is_certain_witness :
  ∃ final e,
    main (single "Harry" (Some true)) = Some final
    ∧ final !! "Harry"%string = Some e
    ∧ prob_trait e true = 1
    ∧ prob_trait e (negb true) = 0.
Proof.
  apply (observed_trait_is_certain (single "Harry" (Some true)) "Harry"%string
           {| name := "Harry"; mother := None; father := None;
              trait := Some true |} true); reflexivity.
Defined.

Lemma length_bind_const {A B} (f : A → list B) (l : list A) (n : nat) :
  (∀ x, x ∈ l → length (f x) = n) → length (l ≫= f) = (length l * n)%nat.
Proof.
  induction l as [|x l IH]; intros Hf; [done|].
  rewrite bind_cons, length_app, IH, Hf; [simpl; lia|left|].
  intros y Hy. apply Hf. by right.
Qed.

Lemma admissible_trait_sets people :
  filter (λ have_trait, fails_evidence people have_trait = false)
         (powerset (dom people))
  ≡ₚ (observed_positive people ∪.) <$> powerset (dom (unknown_trait people)).
Proof.
  assert (Hpos : ∀ y, y ∈ observed_positive people
                      ↔ ∃ row, people !! y = Some row ∧ trait row = Some true).
  { intros y. unfold observed_positive. rewrite elem_of_dom. split.
    - intros [row [??]%map_lookup_filter_Some]. eauto.
    - intros (row & ? & ?). exists row. by apply map_lookup_filter_Some. }
  assert (Hunk : ∀ y, y ∈ dom (unknown_trait people)
                      ↔ ∃ row, people !! y = Some row ∧ trait row = None).
  { intros y. unfold unknown_trait. rewrite elem_of_dom. split.
    - intros [row [??]%map_lookup_filter_Some]. eauto.
    - intros (row & ? & ?). exists row. by apply map_lookup_filter_Some. }
  assert (Hdisj : observed_positive people ## dom (unknown_trait people)).
  { intros y (row & Hrow & Ht)%Hpos (row' & Hrow' & Ht')%Hunk. congruence. }
  apply NoDup_Permutation.
  - apply NoDup_filter, NoDup_powerset.
  - apply NoDup_fmap_2_strong; [|apply NoDup_powerset].
    intros S1 S2 H1%elem_of_powerset H2%elem_of_powerset Heq. set_solver.
  - intros have_trait.
    rewrite list_elem_of_filter, elem_of_powerset, list_elem_of_fmap. split.
    + intros [Hok Hsub].
      assert (Hagree : ∀ y row t, people !! y = Some row → trait row = Some t →
                bool_decide (y ∈ have_trait) = t).
      { intros y row t Hrow Ht.
        destruct (decide (bool_decide (y ∈ have_trait) = t)) as [|Hne]; [done|].
        rewrite (fails_evidence_true people have_trait y row t) in Hok; done. }
      exists (have_trait ∩ dom (unknown_trait people)). split.
      * apply set_eq. intros y. rewrite elem_of_union, elem_of_intersection. split.
        -- intros Hy. pose proof (Hsub y Hy) as [row Hrow]%elem_of_dom.
           destruct (trait row) as [[]|] eqn:Ht.
           ++ left. apply Hpos. eauto.
           ++ pose proof (Hagree y row false Hrow Ht) as Hb.
              by apply bool_decide_eq_false_1 in Hb.
           ++ right. split; [done|]. apply Hunk. eauto.
        -- intros [(row & Hrow & Ht)%Hpos|[? _]]; [|done].
           pose proof (Hagree y row true Hrow Ht) as Hb.
           by apply bool_decide_eq_true_1 in Hb.
      * apply elem_of_powerset. set_solver.
    + intros (S & -> & HS%elem_of_powerset). split.
      * apply fails_evidence_false. intros y row t Hrow Ht. destruct t.
        -- apply bool_decide_eq_true_2, elem_of_union. left. apply Hpos. eauto.
        -- apply bool_decide_eq_false_2. intros [Hy|Hy]%elem_of_union.
           ++ apply Hpos in Hy as (row' & ? & ?). congruence.
           ++ apply HS, Hunk in Hy as (row' & ? & ?). congruence.
      * intros y [Hy|Hy]%elem_of_union.
        -- apply Hpos in Hy as (row & ? & _). apply elem_of_dom. eauto.
        -- apply HS, Hunk in Hy as (row & ? & _). apply elem_of_dom. eauto.
Qed.

(** X14. [main] scores 2^u * 3^n hypotheses for a population of n people of
    whom u have an unknown trait: every observed trait halves the number of
    trait-positive sets that are examined. *)
Theorem number_of_scored_hypotheses (people : gmap string Person) :
  length (hypotheses people)
  = (2 ^ size (unknown_trait people) * 3 ^ size people)%nat.
Proof.
  unfold hypotheses.
  rewrite (bind_unless (fails_evidence people)).
  rewrite (length_bind_const _ _ (3 ^ size people)).
  - rewrite admissible_trait_sets, length_fmap, length_powerset.
    by rewrite size_dom.
  - intros have_trait _. rewrite length_fmap, length_gene_splits.
    by rewrite size_dom.
Qed.

Lemma fails_evidence_ext people have_trait have_trait' :
  (∀ y row t, people !! y = Some row → trait row = Some t →
              (y ∈ have_trait ↔ y ∈ have_trait')) →
  fails_evidence people have_trait = fails_evidence people have_trait'.
Proof.
  intros Hext. unfold fails_evidence.
  apply eq_true_iff_eq. rewrite !existsb_exists.
  split; intros ([y row] & Hin & Hbad); exists (y, row); (split; [done|]);
    apply list_elem_of_In, elem_of_map_to_list in Hin;
    destruct (trait row) as [t|] eqn:Ht; try done;
    [rewrite <-(bool_decide_ext _ _ (Hext y row t Hin Ht))
    |rewrite (bool_decide_ext _ _ (Hext y row t Hin Ht))]; done.
Qed.

Lemma NoDup_hypotheses people : NoDup (hypotheses people).
Proof.
  unfold hypotheses. rewrite (bind_unless (fails_evidence people)).
  apply NoDup_bind.
  - intros ht1 ht2 [[ht og] tg] _ _.
    intros ([??] & [= -> _ _] & _)%list_elem_of_fmap
           ([??] & [= -> _ _] & _)%list_elem_of_fmap. done.
  - intros ht _. apply NoDup_fmap_2_strong; [|apply NoDup_gene_splits].
    intros [??] [??] _ _ [= -> ->]. done.
  - apply NoDup_filter, NoDup_powerset.
Qed.

Lemma hypotheses_by_trait people x row :
  people !! x = Some row → trait row = None →
  hypotheses people ≡ₚ without_trait x people ++ (with_trait x <$> without_trait x people).
Proof.
  intros Hrow Hx.
  assert (Htoggle : ∀ ht ht', (∀ y, y ≠ x → (y ∈ ht ↔ y ∈ ht')) →
            fails_evidence people ht = fails_evidence people ht').
  { intros ht ht' Hsame. apply fails_evidence_ext. intros y row' t Hrow' Ht.
    apply Hsame. intros ->. congruence. }
  assert (Hxin : x ∈ dom people) by (apply elem_of_dom; eauto).
  unfold without_trait. apply NoDup_Permutation.
  - apply NoDup_hypotheses.
  - apply NoDup_app. split_and!.
    + apply NoDup_filter, NoDup_hypotheses.
    + intros [[ht og] tg] [Hno _]%list_elem_of_filter
        ([[ht' og'] tg'] & [= -> -> ->] & _)%list_elem_of_fmap.
      simpl in Hno. set_solver.
    + apply NoDup_fmap_2_strong; [|apply NoDup_filter, NoDup_hypotheses].
      intros [[ht1 og1] tg1] [[ht2 og2] tg2] [H1 _]%list_elem_of_filter
        [H2 _]%list_elem_of_filter [= Heq -> ->].
      simpl in H1, H2. do 2 f_equal. set_solver.
  - intros [[ht og] tg]. rewrite elem_of_app, list_elem_of_filter, list_elem_of_fmap.
    split.
    + intros Hin. destruct (decide (x ∈ ht)) as [Hxht|Hxht]; [right|by left].
      exists (ht ∖ {[x]}, og, tg). split.
      * simpl. do 2 f_equal. apply set_eq. intros y.
        destruct (decide (y = x)); set_solver.
      * apply list_elem_of_filter. split; [simpl; set_solver|].
        apply elem_of_hypotheses in Hin as (Hht & Hok & Hog & Htg).
        apply elem_of_hypotheses. split_and!; [set_solver| |done|done].
        rewrite <-Hok. apply Htoggle. set_solver.
    + intros [[_ Hin]|([[ht' og'] tg'] & [= -> -> ->] & [_ Hin]%list_elem_of_filter)];
        [done|].
      apply elem_of_hypotheses in Hin as (Hht & Hok & Hog & Htg).
      apply elem_of_hypotheses. split_and!; [set_solver| |done|done].
      rewrite <-Hok. apply Htoggle. set_solver.
Qed.

Lemma np_sum_hypotheses_by_trait people x row (f : Outcome → Qc) :
  people !! x = Some row → trait row = None →
  np_sum (f <$> hypotheses people)
  = np_sum ((λ h, f h + f (with_trait x h)) <$> without_trait x people).
Proof.
  intros Hrow Hx.
  rewrite (hypotheses_by_trait people x row Hrow Hx) at 1.
  by rewrite fmap_app, np_sum_app, <-list_fmap_compose, <-np_sum_fmap_plus.
Qed.

Lemma factor_ext_trait row one_gene two_genes have_trait have_trait' :
  (name row ∈ have_trait ↔ name row ∈ have_trait') →
  factor one_gene two_genes have_trait row = factor one_gene two_genes have_trait' row.
Proof.
  intros Hext. unfold factor, probTrait. by rewrite (bool_decide_ext _ _ Hext).
Qed.

(** The two hypotheses that differ only in the trait of [x]. *)
Lemma score_pair people x row have_trait one_gene two_genes :
  keyed_by_name people → people !! x = Some row → x ∉ have_trait →
  ∃ rest,
    score people (have_trait, one_gene, two_genes)
    = rest * PROBS_trait (get_number_genes (Some x) one_gene two_genes) false
    ∧ score people ({[x]} ∪ have_trait, one_gene, two_genes)
      = rest * PROBS_trait (get_number_genes (Some x) one_gene two_genes) true.
Proof.
  intros Hkeyed Hrow Hx.
  assert (Hname : name row = x) by by apply Hkeyed.
  exists (probGenes row one_gene two_genes
          * joint_probability (delete x people) one_gene two_genes have_trait).
  unfold score.
  rewrite !(joint_probability_delete people x row) by done.
  assert (joint_probability (delete x people) one_gene two_genes ({[x]} ∪ have_trait)
          = joint_probability (delete x people) one_gene two_genes have_trait) as ->.
  { rewrite !joint_probability_product. apply product_over_ext.
    intros key row' [Hne Hkey]%elem_of_map_to_list%lookup_delete_Some.
    apply factor_ext_trait. rewrite (Hkeyed _ _ Hkey). set_solver. }
  unfold factor, probTrait. rewrite Hname.
  rewrite (bool_decide_eq_false_2 (x ∈ have_trait)) by done.
  rewrite (bool_decide_eq_true_2 (x ∈ {[x]} ∪ have_trait)) by set_solver.
  split; ring.
Qed.

Lemma shares_pair people x row t h :
  keyed_by_name people → people !! x = Some row → x ∉ h.1.1 →
  trait_share people x t h + trait_share people x t (with_trait x h)
  = PROBS_trait Zero t
      * (gene_share people x Zero h + gene_share people x Zero (with_trait x h))
    + PROBS_trait One t
      * (gene_share people x One h + gene_share people x One (with_trait x h))
    + PROBS_trait Two t
      * (gene_share people x Two h + gene_share people x Two (with_trait x h)).
Proof.
  intros Hkeyed Hrow Hx. destruct h as [[have_trait one_gene] two_genes].
  simpl in Hx.
  destruct (score_pair people x row have_trait one_gene two_genes)
    as (rest & Hfalse & Htrue); [done..|].
  unfold with_trait, gene_share, trait_share. rewrite Hfalse, Htrue.
  rewrite (bool_decide_eq_false_2 (x ∈ have_trait)) by done.
  rewrite (bool_decide_eq_true_2 (x ∈ {[x]} ∪ have_trait)) by set_solver.
  pose proof (PROBS_trait_total (get_number_genes (Some x) one_gene two_genes)) as Hsum.
  assert (Hfalse' : PROBS_trait (get_number_genes (Some x) one_gene two_genes) false
                    = 1 - PROBS_trait (get_number_genes (Some x) one_gene two_genes) true).
  { rewrite <-Hsum. ring. }
  destruct (get_number_genes (Some x) one_gene two_genes), t;
    repeat case_decide; try done; rewrite ?Hfalse'; ring.
Qed.

(** X15. For a person whose trait is not observed, whatever is observed of
    the others, the trait distribution [main] returns is the person's
    gene-count distribution pushed through the trait table:
    P(trait = t) is the sum over g of P(gene count = g) * PROBS["trait"][g][t]. *)
Theorem trait_follows_gene_distribution people person row
    (Hkeyed : keyed_by_name people)
    (Hrow : people !! person = Some row)
    (Hunknown : trait row = None) :
  ∃ final e,
    main people = Some final
    ∧ final !! person = Some e
    ∧ ∀ t, prob_trait e t
           = PROBS_trait Zero t * prob_gene e Zero
             + PROBS_trait One t * prob_gene e One
             + PROBS_trait Two t * prob_gene e Two.
Proof.
  destruct (main_lookup people) as (final & Hmain & Hfinal).
  destruct (run_lookup people (hypotheses people) person row Hrow)
    as (a & Ha & Hgene & Htrait).
  fold (accumulated people) in Ha.
  destruct (accumulated_normalizable people person a Ha) as [Hg Ht].
  pose proof (Qc_pos_nonzero _ (total_probability_pos people)) as Hne.
  destruct (normalize_entry_Some a) as (e & He & Hgene' & Htrait');
    [by rewrite Hg|by rewrite Ht|].
  rewrite Hg in Hgene'. rewrite Ht in Htrait'.
  exists final, e. split_and!; [done|by rewrite Hfinal, Ha|].
  intros t.
  assert (Hacc : prob_trait a t
                 = PROBS_trait Zero t * prob_gene a Zero
                   + PROBS_trait One t * prob_gene a One
                   + PROBS_trait Two t * prob_gene a Two).
  { rewrite Htrait, !Hgene.
    rewrite !(np_sum_hypotheses_by_trait people person row) by done.
    rewrite <-!np_sum_fmap_mult_l, <-!np_sum_fmap_plus.
    apply np_sum_fmap_ext. intros h [Hx _]%list_elem_of_filter.
    by apply (shares_pair people person row). }
  rewrite Htrait', !Hgene', Hacc. by field.
Qed.

Lemma trait_follows_gene_distribution_witness :
  ∃ final e,
    main (single "Harry" None) = Some final
    ∧ final !! "Harry"%string = Some e
    ∧ ∀ t, prob_trait e t
           = PROBS_trait Zero t * prob_gene e Zero
             + PROBS_trait One t * prob_gene e One
             + PROBS_trait Two t * prob_gene e Two.
Proof.
  apply (trait_follows_gene_distribution (single "Harry" None) "Harry"%string
           {| name := "Harry"; mother := None; father := None; trait := None |}).
  - apply (bool_decide_unpack _). vm_compute. exact I.
  - reflexivity.
  - reflexivity.
Defined.

(** ** Further properties: people without recorded parents *)

Lemma six_ways_weighted x y W F have_trait one_gene two_genes :
  only_looks_at x W → y ≠ x →
  six_ways y (λ ht og tg, W ht og tg * F ht og tg) have_trait one_gene two_genes
  = W have_trait one_gene two_genes * six_ways y F have_trait one_gene two_genes.
Proof.
  intros HW Hy. unfold six_ways.
  destruct (HW y have_trait one_gene two_genes Hy) as (H1 & H2 & H3).
  destruct (HW y ({[y]} ∪ have_trait) one_gene two_genes Hy) as (_ & H4 & H5).
  rewrite H4, H5, H1, H2, H3. ring.
Qed.

Lemma map_of_one_person {A} (m : gmap string A) x a :
  size m = 1%nat → m !! x = Some a → m = {[x := a]}.
Proof.
  intros Hsize Hx.
  assert (delete x m = ∅) as Hdel.
  { apply map_size_empty_inv. rewrite map_size_delete_Some by eauto. lia. }
  by rewrite <-(insert_delete_id m x a Hx), Hdel.
Qed.

Section founders.
Variable generation : string → nat.

Lemma sum_over_loops_founder (n : nat) (people : gmap string Person) x row W :
  size people = S n →
  keyed_by_name people →
  acyclic generation people →
  people !! x = Some row →
  (∀ k r, people !! k = Some r → k ≠ x → (generation x < generation k)%nat) →
  only_looks_at x W →
  sum_over_loops (dom people)
    (λ ht og tg, W ht og tg * joint_probability people og tg ht)
  = sum_over_loops {[x]}
      (λ ht og tg, W ht og tg * joint_probability {[x := row]} og tg ht).
Proof.
  revert people. induction n as [|n IH];
    intros people Hsize Hnames Hacyclic Hx Hfirst HW.
  - rewrite (map_of_one_person people x row Hsize Hx). by rewrite dom_singleton_L.
  - destruct (latest_generation generation people) as (y & rowy & Hy & Hmax).
    { apply map_size_non_empty_iff. lia. }
    assert (Hyx : y ≠ x).
    { assert (delete x people ≠ ∅) as [k [r Hk]]%map_choose.
      { apply map_size_non_empty_iff. rewrite map_size_delete_Some by eauto. lia. }
      apply lookup_delete_Some in Hk as [Hkx Hk].
      pose proof (Hfirst k r Hk ltac:(done)). pose proof (Hmax k r Hk).
      intros ->. lia. }
    set (people' := delete y people).
    assert (Hpeople : people = <[y:=rowy]> people').
    { unfold people'. by rewrite insert_delete_id. }
    assert (Hy' : people' !! y = None) by apply lookup_delete_eq.
    assert (Hsub : ∀ k r, people' !! k = Some r → people !! k = Some r).
    { intros k r [_ ?]%lookup_delete_Some. done. }
    rewrite Hpeople. rewrite dom_insert_L.
    rewrite sum_over_loops_insert by by apply not_elem_of_dom.
    transitivity (sum_over_loops (dom people')
                    (λ ht og tg, W ht og tg * joint_probability people' og tg ht)).
    + apply sum_over_loops_ext. intros have_trait one_gene two_genes Hht Hog Htg.
      rewrite (six_ways_weighted x y W
                 (λ ht og tg, joint_probability (<[y:=rowy]> people') og tg ht))
        by done.
      f_equal. apply (six_ways_joint generation); [done| | | |done|done|set_solver].
      * by rewrite <-Hpeople.
      * by rewrite <-Hpeople.
      * intros k r Hk. eapply Hmax, Hsub, Hk.
    + apply IH.
      * unfold people'. rewrite map_size_delete_Some by eauto. lia.
      * intros k r Hk. by apply Hnames, Hsub.
      * intros k r Hk. by apply Hacyclic, Hsub.
      * unfold people'. by rewrite lookup_delete_ne.
      * intros k r Hk Hne. apply (Hfirst k r); [by apply Hsub|done].
      * done.
Qed.
End founders.

(** A generation function that puts a person without parents first. *)
Lemma acyclic_founder_first generation people x row :
  acyclic generation people → people !! x = Some row →
  mother row = None → father row = None →
  acyclic (λ k, if decide (k = x) then 0%nat else S (generation k)) people
  ∧ ∀ k r, people !! k = Some r → k ≠ x →
      ((if decide (x = x) then 0 else S (generation x))
       < (if decide (k = x) then 0 else S (generation k)))%nat.
Proof.
  intros Hacyclic Hx Hm Hf. split.
  - intros k r Hk. destruct (Hacyclic k r Hk) as [Hkm Hkf].
    destruct (decide (k = x)) as [->|Hne].
    + assert (r = row) as -> by congruence. by rewrite Hm, Hf.
    + split.
      * destruct (mother r) as [p|]; [|done]. simpl in *.
        rewrite (decide_False (P := k = x)) by done. case_decide; lia.
      * destruct (father r) as [p|]; [|done]. simpl in *.
        rewrite (decide_False (P := k = x)) by done. case_decide; lia.
  - intros k r Hk Hne. rewrite decide_True by done.
    rewrite decide_False by done. lia.
Qed.

Lemma single_person_shares who g t :
  sum_over_loops {[who]}
    (λ ht og tg, gene_share (single who None) who g (ht, og, tg)) = PROBS_gene g
  ∧ sum_over_loops {[who]}
      (λ ht og tg, trait_share (single who None) who t (ht, og, tg))
    = PROBS_gene Zero * PROBS_trait Zero t + PROBS_gene One * PROBS_trait One t
      + PROBS_gene Two * PROBS_trait Two t.
Proof.
  assert (Hg0 : get_number_genes (Some who) ∅ ∅ = Zero) by done.
  assert (Hg1 : get_number_genes (Some who) {[who]} ∅ = One).
  { apply get_number_genes_One. set_solver. }
  assert (Hg2 : get_number_genes (Some who) ∅ {[who]} = Two).
  { apply get_number_genes_Two. set_solver. }
  assert (Ht0 : bool_decide (who ∈ (∅ : gset string)) = false).
  { apply bool_decide_eq_false_2. set_solver. }
  assert (Ht1 : bool_decide (who ∈ ({[who]} : gset string)) = true).
  { apply bool_decide_eq_true_2. set_solver. }
  split; rewrite sum_over_one_person; unfold gene_share, trait_share, score;
    rewrite !single_joint_probability, ?Hg0, ?Hg1, ?Hg2, ?Ht0, ?Ht1.
  - by destruct g; apply Qc_this_eq.
  - by destruct t; apply Qc_this_eq.
Qed.

Lemma gene_share_only_looks_at x g :
  only_looks_at x (λ ht og tg,
    if decide (g = get_number_genes (Some x) og tg) then 1 else 0).
Proof.
  intros y ht og tg Hy. split_and!; [done|..].
  - rewrite (get_number_genes_ext (Some x) ({[y]} ∪ og) tg og tg); [done|].
    intros ? [= <-]. set_solver.
  - rewrite (get_number_genes_ext (Some x) og ({[y]} ∪ tg) og tg); [done|].
    intros ? [= <-]. set_solver.
Qed.

Lemma trait_share_only_looks_at x t :
  only_looks_at x (λ ht og tg,
    if decide (t = bool_decide (x ∈ ht)) then 1 else 0).
Proof.
  intros y ht og tg Hy. split_and!; [|done..].
  rewrite (bool_decide_ext (x ∈ {[y]} ∪ ht) (x ∈ ht)); [done|]. set_solver.
Qed.

Lemma founder_shares generation people x row g t :
  keyed_by_name people → acyclic generation people → unobserved people →
  people !! x = Some row → mother row = None → father row = None →
  np_sum (gene_share people x g <$> hypotheses people) = PROBS_gene g
  ∧ np_sum (trait_share people x t <$> hypotheses people)
    = PROBS_gene Zero * PROBS_trait Zero t + PROBS_gene One * PROBS_trait One t
      + PROBS_gene Two * PROBS_trait Two t.
Proof.
  intros Hkeyed Hacyclic Hun Hx Hm Hf.
  destruct (acyclic_founder_first generation people x row Hacyclic Hx Hm Hf)
    as [Hacyclic1 Hfirst].
  assert (Hrow : ({[x := row]} : gmap string Person) = single x None).
  { pose proof (Hkeyed x row Hx) as Hname. pose proof (Hun x row Hx) as Htrait.
    destruct row as [nm mo fa tr]. simpl in *. by subst. }
  assert (Hsize : size people = S (pred (size people))).
  { assert (size people ≠ 0%nat); [|lia].
    apply map_size_non_empty_iff. intros ->. by rewrite lookup_empty in Hx. }
  destruct (single_person_shares x g t) as [Hgene Htrait].
  rewrite !np_sum_hypotheses_unobserved by done. split.
  - rewrite <-Hgene.
    rewrite (sum_over_loops_ext (dom people) _
               (λ ht og tg, (if decide (g = get_number_genes (Some x) og tg)
                             then 1 else 0) * joint_probability people og tg ht)).
    2:{ intros ht og tg _ _ _. unfold gene_share, score. cbv beta iota.
      destruct (decide (g = _)); ring. }
    rewrite (sum_over_loops_founder _ _ people x row _ Hsize Hkeyed Hacyclic1 Hx
               Hfirst (gene_share_only_looks_at x g)).
    rewrite Hrow. apply sum_over_loops_ext. intros ht og tg _ _ _.
    unfold gene_share, score. cbv beta iota.
      destruct (decide (g = _)); ring.
  - rewrite <-Htrait.
    rewrite (sum_over_loops_ext (dom people) _
               (λ ht og tg, (if decide (t = bool_decide (x ∈ ht))
                             then 1 else 0) * joint_probability people og tg ht)).
    2:{ intros ht og tg _ _ _. unfold trait_share, score. cbv beta iota.
      destruct (decide (t = _)); ring. }
    rewrite (sum_over_loops_founder _ _ people x row _ Hsize Hkeyed Hacyclic1 Hx
               Hfirst (trait_share_only_looks_at x t)).
    rewrite Hrow. apply sum_over_loops_ext. intros ht og tg _ _ _.
    unfold trait_share, score. cbv beta iota.
      destruct (decide (t = _)); ring.
Qed.

(** X16. In a structurally valid population in which no trait is observed,
    every person without recorded parents gets the unconditional prior as
    gene-count distribution, whatever the size of the family, and trait
    probabilities 0.0329 and 0.9671. *)
Theorem founder_posterior_is_prior generation people person row
    (Hkeyed : keyed_by_name people)
    (Hacyclic : acyclic generation people)
    (Hunobserved : unobserved people)
    (Hrow : people !! person = Some row)
    (Hmother : mother row = None)
    (Hfather : father row = None) :
  ∃ final e,
    main people = Some final
    ∧ final !! person = Some e
    ∧ (∀ g, prob_gene e g = PROBS_gene g)
    ∧ prob_trait e true = Q2Qc (329 # 10000)
    ∧ prob_trait e false = Q2Qc (9671 # 10000).
Proof.
  assert (Htotal : total_probability people = 1).
  { rewrite total_probability_unobserved by done.
    by apply (sum_over_loops_joint generation (size people)). }
  destruct (main_lookup people) as (final & Hmain & Hfinal).
  destruct (run_lookup people (hypotheses people) person row Hrow)
    as (a & Ha & Hgene & Htrait).
  fold (accumulated people) in Ha.
  destruct (accumulated_normalizable people person a Ha) as [Hg Ht].
  destruct (normalize_entry_Some a) as (e & He & Hgene1 & Htrait1);
    [by rewrite Hg, Htotal|by rewrite Ht, Htotal|].
  rewrite Hg, Htotal in Hgene1. rewrite Ht, Htotal in Htrait1.
  exists final, e. split_and!; [done|by rewrite Hfinal, Ha|..].
  - intros g. rewrite Hgene1, Hgene.
    destruct (founder_shares generation people person row g true) as [-> _]; [done..|].
    by field.
  - rewrite Htrait1, Htrait.
    destruct (founder_shares generation people person row Zero true) as [_ ->];
      [done..|].
    by apply Qc_this_eq.
  - rewrite Htrait1, Htrait.
    destruct (founder_shares generation people person row Zero false) as [_ ->];
      [done..|].
    by apply Qc_this_eq.
Qed.

Lemma founder_posterior_is_prior_witness :
  ∃ final e,
    main (family None None) = Some final
    ∧ final !! "Lily"%string = Some e
    ∧ (∀ g, prob_gene e g = PROBS_gene g)
    ∧ prob_trait e true = Q2Qc (329 # 10000)
    ∧ prob_trait e false = Q2Qc (9671 # 10000).
Proof.
  apply (founder_posterior_is_prior family_generation (family None None)
           "Lily"%string
           {| name := "Lily"; mother := None; father := None; trait := None |}).
  - apply (bool_decide_unpack _). vm_compute. exact I.
  - apply (bool_decide_unpack _). vm_compute. exact I.
  - apply (bool_decide_unpack _). vm_compute. exact I.
  - reflexivity.
  - reflexivity.
  - reflexivity.
Defined.

(** ** Further properties: from the rows of the file to the table *)

Lemma main_table people person row :
  people !! person = Some row →
  ∃ final e a,
    main people = Some final
    ∧ final !! person = Some e
    ∧ accumulated people !! person = Some a
    ∧ (∀ g, prob_gene e g = prob_gene a g / total_probability people)
    ∧ (∀ t, prob_trait e t = prob_trait a t / total_probability people)
    ∧ (∀ g, prob_gene a g = np_sum (gene_share people person g <$> hypotheses people))
    ∧ (∀ t, prob_trait a t = np_sum (trait_share people person t <$> hypotheses people))
    ∧ prob_trait a true + prob_trait a false = total_probability people
    ∧ total_probability people ≠ 0.
Proof.
  intros Hrow.
  destruct (main_lookup people) as (final & Hmain & Hfinal).
  destruct (run_lookup people (hypotheses people) person row Hrow)
    as (a & Ha & Hgene & Htrait).
  fold (accumulated people) in Ha.
  destruct (accumulated_normalizable people person a Ha) as [Hg Ht].
  pose proof (Qc_pos_nonzero _ (total_probability_pos people)) as Hne.
  destruct (normalize_entry_Some a) as (e & He & Hgene1 & Htrait1);
    [by rewrite Hg|by rewrite Ht|].
  rewrite Hg in Hgene1. rewrite Ht in Htrait1.
  exists final, e, a. split_and!; try done. by rewrite Hfinal, Ha.
Qed.

Lemma load_data_lookup_row rows who person :
  load_data rows !! who = Some person →
  ∃ row, row ∈ rows ∧ row_name row = who ∧ person = load_row row.
Proof.
  rewrite load_data_lookup. intros Hlast.
  destruct (last _) as [row|] eqn:Hrow; [|done]. injection Hlast as <-.
  apply last_Some_elem_of, list_elem_of_filter in Hrow as [??]. eauto.
Qed.

(** X17. From the file to the table: when the last row with a person's name
    has ["1"] in the trait column the table gives that person the trait with
    probability exactly 1, and when it has ["0"] with probability exactly 0,
    whatever else the file holds. *)
Theorem loaded_observation_is_certain rows who row
    (Hlast : last (filter (λ row, row_name row = who) rows) = Some row)
    (Hcell : row_trait row = "1"%string ∨ row_trait row = "0"%string) :
  ∃ final e,
    main (load_data rows) = Some final
    ∧ final !! who = Some e
    ∧ prob_trait e true = (if decide (row_trait row = "1"%string) then 1 else 0)
    ∧ prob_trait e false = (if decide (row_trait row = "1"%string) then 0 else 1).
Proof.
  set (people := load_data rows).
  assert (Hrow : people !! who = Some (load_row row)).
  { unfold people. by rewrite load_data_lookup, Hlast. }
  destruct (main_table people who _ Hrow)
    as (final & e & a & Hmain & He & Ha & _ & Htrait & _ & _ & Hsum & Hne).
  exists final, e. split; [done|]. split; [done|]. rewrite !Htrait.
  destruct (decide (row_trait row = "1"%string)) as [Hc|Hc].
  - assert (Ht : trait (load_row row) = Some true).
    { simpl. by rewrite decide_True. }
    assert (Hzero : prob_trait a false = 0).
    { by apply (run_opposite_bucket people (hypotheses people) who
                  (load_row row) true). }
    rewrite Hzero, Qcplus_0_r in Hsum. rewrite Hzero, Hsum. split; by field.
  - assert (Ht : trait (load_row row) = Some false).
    { simpl. rewrite decide_False by done. destruct Hcell as [?|Hc0]; [done|].
      by rewrite decide_True. }
    assert (Hzero : prob_trait a true = 0).
    { by apply (run_opposite_bucket people (hypotheses people) who
                  (load_row row) false). }
    rewrite Hzero, Qcplus_0_l in Hsum. rewrite Hzero, Hsum. split; by field.
Qed.

Lemma loaded_observation_is_certain_witness :
  ∃ final e,
    main (load_data [ {| row_name := "Harry"; row_mother := ""; row_father := "";
                         row_trait := "1" |} ]) = Some final
    ∧ final !! "Harry"%string = Some e
    ∧ prob_trait e true = 1
    ∧ prob_trait e false = 0.
Proof.
  apply (loaded_observation_is_certain
           [ {| row_name := "Harry"; row_mother := ""; row_father := "";
                row_trait := "1" |} ] "Harry"%string
           {| row_name := "Harry"; row_mother := ""; row_father := "";
              row_trait := "1" |}).
  - reflexivity.
  - left. reflexivity.
Defined.

(** X18. From the file to the table: when no row records a parent or a
    trait value, every person of the file gets the unconditional prior as
    gene-count distribution and trait probabilities 0.0329 and 0.9671. *)
Theorem unrelated_people_get_prior rows who
    (Hblank : Forall (λ row, row_mother row = ""%string
                             ∧ row_father row = ""%string
                             ∧ row_trait row ≠ "1"%string
                             ∧ row_trait row ≠ "0"%string) rows)
    (Hwho : who ∈ row_name <$> rows) :
  ∃ final e,
    main (load_data rows) = Some final
    ∧ final !! who = Some e
    ∧ (∀ g, prob_gene e g = PROBS_gene g)
    ∧ prob_trait e true = Q2Qc (329 # 10000)
    ∧ prob_trait e false = Q2Qc (9671 # 10000).
Proof.
  set (people := load_data rows).
  assert (Hrecord : ∀ k person, people !! k = Some person →
            mother person = None ∧ father person = None ∧ trait person = None).
  { intros k person (row & Hin & _ & ->)%load_data_lookup_row.
    rewrite Forall_forall in Hblank.
    destruct (Hblank row Hin) as (Hm & Hf & H1 & H0). simpl.
    rewrite Hm, Hf. split_and!; [done|done|]. by repeat case_decide. }
  assert (Hkeyed : keyed_by_name people) by apply load_data_keyed.
  assert (Hacyclic : acyclic (λ _, 0%nat) people).
  { intros k person Hk. destruct (Hrecord k person Hk) as (-> & -> & _). done. }
  assert (Hun : unobserved people).
  { intros k person Hk. by destruct (Hrecord k person Hk) as (_ & _ & ->). }
  assert (is_Some (people !! who)) as [person Hperson].
  { apply elem_of_dom. unfold people. rewrite load_data_dom.
    by apply elem_of_list_to_set. }
  destruct (Hrecord who person Hperson) as (Hm & Hf & _).
  assert (Htotal : total_probability people = 1).
  { rewrite total_probability_unobserved by done.
    by apply (sum_over_loops_joint (λ _, 0%nat) (size people)). }
  destruct (main_table people who person Hperson)
    as (final & e & a & Hmain & He & Ha & Hgene & Htrait & Hg & Ht & _ & _).
  exists final, e. split_and!; [done|done|..].
  - intros g. rewrite Hgene, Hg, Htotal.
    destruct (founder_shares (λ _, 0%nat) people who person g true) as [-> _];
      [done..|]. by field.
  - rewrite Htrait, Ht, Htotal.
    destruct (founder_shares (λ _, 0%nat) people who person Zero true) as [_ ->];
      [done..|]. by apply Qc_this_eq.
  - rewrite Htrait, Ht, Htotal.
    destruct (founder_shares (λ _, 0%nat) people who person Zero false) as [_ ->];
      [done..|]. by apply Qc_this_eq.
Qed.

Lemma unrelated_people_get_prior_witness :
  ∃ final e,
    main (load_data [ {| row_name := "Harry"; row_mother := ""; row_father := "";
                         row_trait := "" |};
                      {| row_name := "Lily"; row_mother := ""; row_father := "";
                         row_trait := "" |} ]) = Some final
    ∧ final !! "Lily"%string = Some e
    ∧ (∀ g, prob_gene e g = PROBS_gene g)
    ∧ prob_trait e true = Q2Qc (329 # 10000)
    ∧ prob_trait e false = Q2Qc (9671 # 10000).
Proof.
  apply unrelated_people_get_prior.
  - repeat constructor; discriminate.
  - right. left.
Defined.

(** ** Further properties: the order of [powerset] *)

Lemma combinations_too_many {A} (s : list A) (r : nat) :
  (length s < r)%nat → combinations s r = [].
Proof.
  revert r. induction s as [|x s IH]; intros [|r] Hr; simpl in *; try lia; [done|].
  rewrite (IH r), (IH (S r)) by lia. done.
Qed.

Lemma combinations_all {A} (s : list A) : combinations s (length s) = [s].
Proof.
  induction s as [|x s IH]; [done|]. simpl.
  rewrite IH, combinations_too_many by lia. done.
Qed.

Lemma StronglySorted_all {A} (R : relation A) (l : list A) :
  (∀ x y, x ∈ l → y ∈ l → R x y) → StronglySorted R l.
Proof.
  induction l as [|x l IH]; intros HR; constructor.
  - apply IH. intros y z Hy Hz. apply HR; by right.
  - apply Forall_forall. intros y Hy. apply HR; [left|by right].
Qed.

Lemma chained_combinations_sorted (s : list string) (a k : nat) :
  NoDup s →
  StronglySorted (λ c1 c2, NoDup c1 ∧ NoDup c2 ∧ (length c1 ≤ length c2)%nat)
                 (mjoin (combinations s <$> seq a k)).
Proof.
  intros Hs. revert a. induction k as [|k IH]; intros a; [constructor|].
  csimpl. apply StronglySorted_app_2; [| |apply IH].
  - intros c1 c2 [Hsub1 Hlen1]%elem_of_combinations
      (l & Hc2 & (r & -> & Hr%elem_of_seq)%list_elem_of_fmap)%list_elem_of_join.
    apply elem_of_combinations in Hc2 as [Hsub2 Hlen2].
    split_and!; [by eapply sublist_NoDup..|lia].
  - apply StronglySorted_all.
    intros c1 c2 [Hsub1 Hlen1]%elem_of_combinations [Hsub2 Hlen2]%elem_of_combinations.
    split_and!; [by eapply sublist_NoDup..|lia].
Qed.

(** X19. [powerset] lists the subsets by size: a set never comes before a
    smaller one, the empty set is first and the whole set is last. *)
Theorem powerset_by_size (s : gset string) :
  StronglySorted (λ X Y, (size X ≤ size Y)%nat) (powerset s)
  ∧ head (powerset s) = Some ∅
  ∧ last (powerset s) = Some s.
Proof.
  unfold powerset. split_and!.
  - eapply StronglySorted_fmap;
      [|apply chained_combinations_sorted, NoDup_elements].
    intros c1 c2 (H1 & H2 & Hle). by rewrite !size_list_to_set.
  - rewrite Nat.add_1_r. cbn [seq]. rewrite fmap_cons.
    by destruct (elements s).
  - rewrite fmap_last, Nat.add_1_r, seq_S, fmap_app, join_app. csimpl.
    rewrite combinations_all, app_nil_r, last_snoc. simpl.
    by rewrite list_to_set_elements_L.
Qed.

(** ** Further properties: symmetry and size of the scores *)

Lemma prob_inherited_sym own fatherProb motherProb :
  prob_inherited own fatherProb motherProb = prob_inherited own motherProb fatherProb.
Proof. unfold prob_inherited. destruct own; ring. Qed.

(** X20. The evaluator treats mother and father alike: exchanging the two
    recorded parents of a person, one of whom may be blank, changes neither
    that person's factor nor the joint probability. *)
Theorem parents_are_interchangeable people key row one_gene two_genes have_trait
    (Hrow : people !! key = Some row) :
  probGenes (swap_parents row) one_gene two_genes = probGenes row one_gene two_genes
  ∧ joint_probability (<[key := swap_parents row]> people) one_gene two_genes have_trait
    = joint_probability people one_gene two_genes have_trait.
Proof.
  assert (Hgenes : probGenes (swap_parents row) one_gene two_genes
                   = probGenes row one_gene two_genes).
  { unfold probGenes, swap_parents. cbn [name mother father].
    destruct (mother row), (father row); try done; apply prob_inherited_sym. }
  split; [done|].
  rewrite <-(insert_delete_eq people), (joint_probability_delete people key row)
    by done.
  rewrite joint_probability_insert by apply lookup_delete_eq.
  f_equal. unfold factor. rewrite Hgenes. done.
Qed.

Lemma parents_are_interchangeable_witness :
  probGenes (swap_parents harry) {["Lily"%string]} ∅
  = probGenes harry {["Lily"%string]} ∅.
Proof.
  refine (proj1 (parents_are_interchangeable (family None None) "Harry"%string
                   harry {["Lily"%string]} ∅ ∅ _)).
  reflexivity.
Defined.

Lemma np_sum_filter_le {A} (P : A → Prop) `{∀ x, Decision (P x)}
    (f : A → Qc) (l : list A) :
  (∀ x, 0 ≤ f x) → np_sum (f <$> filter P l) ≤ np_sum (f <$> l).
Proof.
  intros Hf. induction l as [|x l IH]; [apply Qcle_refl|].
  rewrite fmap_cons, np_sum_cons.
  destruct (decide (P x)).
  - rewrite filter_cons_True, fmap_cons, np_sum_cons by done.
    by apply Qcplus_le_mono_l.
  - rewrite filter_cons_False by done.
    apply Qcle_trans with (0 + np_sum (f <$> l)).
    + by rewrite Qcplus_0_l.
    + by apply Qcplus_le_mono_r.
Qed.

(** X21. In a structurally valid population, whatever is observed, the joint
    probabilities of the hypotheses that [main] scores sum to a probability:
    more than 0 and at most 1. *)
Theorem total_probability_is_a_probability generation people
    (Hkeyed : keyed_by_name people)
    (Hacyclic : acyclic generation people) :
  0 < total_probability people ∧ total_probability people ≤ 1.
Proof.
  split; [apply total_probability_pos|].
  rewrite <-(sum_over_loops_joint generation (size people) people) by done.
  rewrite total_probability_score. unfold hypotheses, sum_over_loops.
  rewrite (bind_unless (fails_evidence people)), np_sum_bind.
  etrans; [apply (np_sum_filter_le _ _ (powerset (dom people)))|].
  - intros have_trait. apply np_sum_nonneg, Forall_fmap, Forall_fmap, Forall_forall.
    intros [??] _. simpl. apply Qclt_le_weak, joint_probability_pos.
  - match goal with |- ?a ≤ ?b => assert (a = b) as ->; [|apply Qcle_refl] end.
    apply np_sum_fmap_ext. intros have_trait _.
    rewrite <-list_fmap_compose. apply np_sum_fmap_ext. by intros [??] _.
Qed.

Lemma total_probability_is_a_probability_witness :
  0 < total_probability (family (Some true) (Some false))
  ∧ total_probability (family (Some true) (Some false)) ≤ 1.
Proof.
  apply (total_probability_is_a_probability family_generation).
  - apply (bool_decide_unpack _). vm_compute. exact I.
  - apply (bool_decide_unpack _). vm_compute. exact I.
Defined.
